(** * evo: absolute pose error (APE) — [evo/main_ape.py]

    A shallow embedding of the functions [ape] and [run] of
    [evo/main_ape.py] together with the parts of the evo core they call
    (trajectories, synchronisation, alignment, metrics, results).

    Numbers are modelled twice.  In the main development Python floats
    are real numbers and every arithmetic operation is exact; what is
    stated there is about the structure of the results (keys, objects,
    calls, lengths) or uses only arithmetic that binary64 shares with
    the reals (x - x = 0, d - 0 = d, monotonicity).  The numbers that
    the program computes are obtained in module [B64], which repeats
    [ape] over binary64 floats.  Python objects that are shared and
    mutated in place (trajectories) live in an explicit object store
    addressed by references. *)

From Stdlib Require Import Floats.PrimFloat Numbers.Cyclic.Int63.Uint63.
From Stdlib Require Import Reals Lra Lia ZArith Sorted.
From stdpp Require Import gmap strings list pretty.

Local Open Scope R_scope.

(** ** Linear algebra on fixed-size values *)

Record Vec3 := mkVec3 { vx : R; vy : R; vz : R }.

(** A 3x3 matrix, stored by rows. *)
Record Mat3 := mkMat3 { row0 : Vec3; row1 : Vec3; row2 : Vec3 }.

Definition vadd (a b : Vec3) : Vec3 :=
  mkVec3 (vx a + vx b) (vy a + vy b) (vz a + vz b).
Definition vsub (a b : Vec3) : Vec3 :=
  mkVec3 (vx a - vx b) (vy a - vy b) (vz a - vz b).
Definition vscale (s : R) (a : Vec3) : Vec3 :=
  mkVec3 (s * vx a) (s * vy a) (s * vz a).
Definition vdot (a b : Vec3) : R := vx a * vx b + vy a * vy b + vz a * vz b.
Definition vnorm (a : Vec3) : R := sqrt (vdot a a).

Definition mat_id : Mat3 :=
  mkMat3 (mkVec3 1 0 0) (mkVec3 0 1 0) (mkVec3 0 0 1).
Definition mat_col0 (m : Mat3) : Vec3 :=
  mkVec3 (vx (row0 m)) (vx (row1 m)) (vx (row2 m)).
Definition mat_col1 (m : Mat3) : Vec3 :=
  mkVec3 (vy (row0 m)) (vy (row1 m)) (vy (row2 m)).
Definition mat_col2 (m : Mat3) : Vec3 :=
  mkVec3 (vz (row0 m)) (vz (row1 m)) (vz (row2 m)).
Definition mat_transpose (m : Mat3) : Mat3 :=
  mkMat3 (mat_col0 m) (mat_col1 m) (mat_col2 m).
Definition mat_vec (m : Mat3) (v : Vec3) : Vec3 :=
  mkVec3 (vdot (row0 m) v) (vdot (row1 m) v) (vdot (row2 m) v).
Definition vec_mat (v : Vec3) (m : Mat3) : Vec3 :=
  mkVec3 (vdot v (mat_col0 m)) (vdot v (mat_col1 m)) (vdot v (mat_col2 m)).
Definition mat_mul (a b : Mat3) : Mat3 :=
  mkMat3 (vec_mat (row0 a) b) (vec_mat (row1 a) b) (vec_mat (row2 a) b).
Definition mat_scale (s : R) (m : Mat3) : Mat3 :=
  mkMat3 (vscale s (row0 m)) (vscale s (row1 m)) (vscale s (row2 m)).
Definition mat_trace (m : Mat3) : R :=
  vx (row0 m) + vy (row1 m) + vz (row2 m).

(** ** Data model (spec section 3) *)

(** Pose: a rotation and a translation. *)
Record Pose := mkPose { rot : Mat3; trans : Vec3 }.

(** Composition [a . b] of rigid transforms and the inverse
    [(R^T, - R^T t)] of one. *)
Definition se3_compose (a b : Pose) : Pose :=
  mkPose (mat_mul (rot a) (rot b)) (vadd (mat_vec (rot a) (trans b)) (trans a)).
Definition se3_inverse (p : Pose) : Pose :=
  let rt := mat_transpose (rot p) in
  mkPose rt (vscale (-1) (mat_vec rt (trans p))).

(** SimilarityTransform: rotation, translation and scale. *)
Record Sim3 := mkSim3 { sim_rot : Mat3; sim_trans : Vec3; sim_scale : R }.

(** A trajectory object.  [timestamps = None] is an untimestamped
    [PosePath3D]; [timestamps = Some ts] is a [PoseTrajectory3D]. *)
Record Traj := mkTraj { poses : list Pose; timestamps : option (list R) }.

Definition num_poses (t : Traj) : nat := length (poses t).
Definition positions (t : Traj) : list Vec3 := map trans (poses t).

(** [isinstance(t, PoseTrajectory3D)] *)
Definition is_trajectory (t : Traj) : bool :=
  match timestamps t with Some _ => true | None => false end.

(** One timestamp per pose. *)
Definition wf_traj (t : Traj) : Prop :=
  match timestamps t with
  | Some ts => length ts = length (poses t)
  | None => True
  end.

(** Modelled from the spec: the derived attribute [distances] of a
    PosePath ([evo/core/trajectory.py] is not part of the sources) —
    the cumulative sum of the Euclidean translation deltas between
    consecutive poses, with [distances[0] = 0], one entry per pose. *)
Fixpoint cumulative_from (acc : R) (prev : Vec3) (ps : list Vec3) : list R :=
  match ps with
  | [] => []
  | p :: ps' =>
      let acc' := acc + vnorm (vsub p prev) in
      acc' :: cumulative_from acc' p ps'
  end.

Definition distances_of (ps : list Vec3) : list R :=
  match ps with
  | [] => []
  | p :: ps' => 0 :: cumulative_from 0 p ps'
  end.

Definition distances (t : Traj) : list R := distances_of (positions t).

(** Numeric arrays stored in a result: one-dimensional arrays and
    matrices (row lists).  [arr_len] is Python's [len], the size of the
    first axis. *)
Inductive ndarray :=
  | Arr1 (xs : list R)
  | Arr2 (rows : list (list R)).

Definition arr_len (a : ndarray) : nat :=
  match a with
  | Arr1 xs => length xs
  | Arr2 rows => length rows
  end.

(** Object references. *)
Abbreviation loc := nat (only parsing).

(** Result: metadata, statistics, named arrays and attached
    trajectories.  An attached trajectory is a reference to the
    trajectory object itself, as in Python. *)
Record Result := mkResult {
  info : gmap string string;
  stats : gmap string R;
  np_arrays : gmap string ndarray;
  trajectories : gmap string loc
}.

(** The closed enumeration of pose relations (spec section 4.4). *)
Inductive PoseRelation :=
  | full | trans_part | rot_part | angle_deg | angle_rad | point_distance.

(** The error taxonomy (spec section 7).  [InvalidRef] is the outcome
    of dereferencing a reference that is not in the store; it has no
    Python counterpart. *)
Inductive Exc :=
  | DataError | AssociationError | AlignmentError | MetricError | InvalidRef.

(** ** The object store and the evaluation monad *)

(** Method calls made on trajectory objects, in program order. *)
Inductive Call :=
  | CallAlign (est ref : loc) (correct_scale only_scale : bool) (n : Z)
  | CallAlignOrigin (est ref : loc)
  | CallReduceToTimeRange (traj : loc) (t_start t_end : option R)
  | CallAssociate (first second : loc) (max_diff offset : R).

Record World := mkWorld { heap : gmap loc Traj; calls : list Call }.

(** A computation runs in a world and yields an exception or a value,
    and the world it leaves behind. *)
Definition M (A : Type) : Type := World -> (Exc + A) * World.

Definition ret {A} (a : A) : M A := fun w => (inr a, w).
Definition raise {A} (e : Exc) : M A := fun w => (inl e, w).
Definition bind {A B} (m : M A) (k : A -> M B) : M B :=
  fun w => match m w with
           | (inr a, w') => k a w'
           | (inl e, w') => (inl e, w')
           end.

Notation "x <- c1 ;; c2" := (bind c1 (fun x => c2))
  (at level 100, c1 at next level, right associativity).
Notation "c1 ;;; c2" := (bind c1 (fun _ => c2))
  (at level 100, right associativity).

Definition get_obj (l : loc) : M Traj :=
  fun w => match heap w !! l with
           | Some t => (inr t, w)
           | None => (inl InvalidRef, w)
           end.
Definition set_obj (l : loc) (t : Traj) : M unit :=
  fun w => (inr tt, mkWorld (<[l := t]> (heap w)) (calls w)).
Definition new_obj (t : Traj) : M loc :=
  fun w => let l := fresh (dom (heap w)) in
           (inr l, mkWorld (<[l := t]> (heap w)) (calls w)).
Definition log_call (c : Call) : M unit :=
  fun w => (inr tt, mkWorld (heap w) (calls w ++ [c])).
Definition lift_exc {A} (r : Exc + A) : M A := fun w => (r, w).

(** Decisions on reals as booleans. *)
Definition rle (a b : R) : bool := if Rle_dec a b then true else false.
Definition rlt (a b : R) : bool := if Rlt_dec a b then true else false.
Definition req (a b : R) : bool := if Req_dec_T a b then true else false.

(** ** Pose Trajectory Model (spec section 4.1) *)

(** Modelled from the spec: restriction of a trajectory by an explicit
    index subset, preserving the order of the subset; [DataError] when
    an index is out of range ([evo/core/trajectory.py] is not part of
    the sources). *)
Definition select {A} (ids : list nat) (l : list A) : option (list A) :=
  mapM (fun i => l !! i) ids.

Definition reduce_to_ids (ids : list nat) (t : Traj) : Exc + Traj :=
  match select ids (poses t) with
  | None => inl DataError
  | Some ps =>
      match timestamps t with
      | None => inr (mkTraj ps None)
      | Some ts =>
          match select ids ts with
          | None => inl DataError
          | Some ts' => inr (mkTraj ps (Some ts'))
          end
      end
  end.

(** Indices (counted from [i]) of the timestamps that satisfy [keep]. *)
Fixpoint indices_where (keep : R -> bool) (i : nat) (ts : list R) : list nat :=
  match ts with
  | [] => []
  | t :: ts' =>
      if keep t then i :: indices_where keep (S i) ts'
      else indices_where keep (S i) ts'
  end.

(** Membership in the closed interval; an absent bound does not
    constrain. *)
Definition in_time_range (t_start t_end : option R) (t : R) : bool :=
  match t_start with Some s => rle s t | None => true end
  && match t_end with Some e => rle t e | None => true end.

(** Modelled from the spec: [PoseTrajectory3D.reduce_to_time_range],
    the restriction to a closed time interval with inclusive bounds.
    [run] discards its return value, so it trims the object in place.
    ([evo/core/trajectory.py] is not part of the sources.) *)
Definition reduce_to_time_range (traj : loc) (t_start t_end : option R)
  : M unit :=
  log_call (CallReduceToTimeRange traj t_start t_end) ;;;
  t <- get_obj traj ;;
  match timestamps t with
  | None => raise DataError
  | Some ts =>
      t' <- lift_exc
              (reduce_to_ids (indices_where (in_time_range t_start t_end) 0 ts) t) ;;
      set_obj traj t'
  end.

(** ** Synchronizer (spec section 4.2) *)

(** Scan of B for the timestamp closest to [ta]: the running best index
    and distance; a later candidate wins only when strictly closer, so
    ties go to the earliest index. *)
Fixpoint closest_from (ta offset : R) (best : nat) (best_diff : R)
    (j : nat) (tbs : list R) : nat * R :=
  match tbs with
  | [] => (best, best_diff)
  | tb :: tbs' =>
      let d := Rabs (ta - (tb + offset)) in
      if rlt d best_diff then closest_from ta offset j d (S j) tbs'
      else closest_from ta offset best best_diff (S j) tbs'
  end.

Definition closest (ta offset : R) (tbs : list R) : option (nat * R) :=
  match tbs with
  | [] => None
  | tb :: tbs' =>
      Some (closest_from ta offset 0%nat (Rabs (ta - (tb + offset))) 1%nat tbs')
  end.

(** Greedy one-to-one assignment scanning A in order; [used] holds the
    indices of B consumed by earlier matches. *)
Fixpoint matching_from (max_diff offset : R) (tbs : list R)
    (used : gset nat) (i : nat) (tas : list R) : list (nat * nat) :=
  match tas with
  | [] => []
  | ta :: tas' =>
      match closest ta offset tbs with
      | Some (j, d) =>
          if rle d max_diff && bool_decide (j ∉ used)
          then (i, j) :: matching_from max_diff offset tbs ({[j]} ∪ used) (S i) tas'
          else matching_from max_diff offset tbs used (S i) tas'
      | None => matching_from max_diff offset tbs used (S i) tas'
      end
  end.

Definition matching_time_indices (tas tbs : list R) (max_diff offset : R)
  : list (nat * nat) :=
  matching_from max_diff offset tbs ∅ 0%nat tas.

(** Modelled from the spec: [sync.associate_trajectories]
    ([evo/core/sync.py] is not part of the sources).  Both inputs must
    be timestamped; the outputs are new objects; zero matches fail with
    [AssociationError]. *)
Definition associate_trajectories (first second : loc) (max_diff offset : R)
  : M (loc * loc) :=
  log_call (CallAssociate first second max_diff offset) ;;;
  ta <- get_obj first ;;
  tb <- get_obj second ;;
  match timestamps ta, timestamps tb with
  | Some tas, Some tbs =>
      let ms := matching_time_indices tas tbs max_diff offset in
      match ms with
      | [] => raise AssociationError
      | _ =>
          ta' <- lift_exc (reduce_to_ids (ms.*1) ta) ;;
          tb' <- lift_exc (reduce_to_ids (ms.*2) tb) ;;
          la <- new_obj ta' ;;
          lb <- new_obj tb' ;;
          ret (la, lb)
      end
  | _, _ => raise DataError
  end.

(** ** Alignment Engine (spec section 4.3) *)

(** Applying a similarity transform to a pose: the rotation becomes
    [R . R_old] and the translation [s . R . t_old + t]. *)
Definition sim3_apply (T : Sim3) (p : Pose) : Pose :=
  mkPose (mat_mul (sim_rot T) (rot p))
         (vadd (vscale (sim_scale T) (mat_vec (sim_rot T) (trans p)))
               (sim_trans T)).

Definition traj_transform (T : Sim3) (t : Traj) : Traj :=
  mkTraj (map (sim3_apply T) (poses t)) (timestamps t).

Definition row4 (r : Vec3) (t : R) : list R := [vx r; vy r; vz r; t].

(** [lie_algebra.sim3(r, t, s)]: the 4x4 matrix [[s.r, t], [0, 1]]. *)
Definition sim3 (T : Sim3) : ndarray :=
  let sr := mat_scale (sim_scale T) (sim_rot T) in
  Arr2 [ row4 (row0 sr) (vx (sim_trans T));
         row4 (row1 sr) (vy (sim_trans T));
         row4 (row2 sr) (vz (sim_trans T));
         [0; 0; 0; 1] ].

(** The 4x4 matrix of a rigid transform. *)
Definition se3 (p : Pose) : ndarray := sim3 (mkSim3 (rot p) (trans p) 1).

(** [positions[:n]] for the first [n] correspondences; [-1] means all. *)
Definition first_n {A} (n : Z) (l : list A) : list A :=
  if (n =? -1)%Z then l else take (Z.to_nat n) l.

(** ** Metric Engine (spec section 4.4) *)

Definition clamp (x lo hi : R) : R := Rmax lo (Rmin x hi).

(** Rotation angle [arccos(clamp((trace(R) - 1) / 2, -1, 1))]. *)
Definition rotation_angle (m : Mat3) : R :=
  acos (clamp ((mat_trace m - 1) / 2) (-1) 1).

Definition rsum (l : list R) : R := foldr Rplus 0 l.
Definition squares (l : list R) : list R := map (fun e => e * e) l.
Definition mean (l : list R) : R := rsum l / INR (length l).
Definition rmse (l : list R) : R := sqrt (mean (squares l)).
Definition sse (l : list R) : R := rsum (squares l).
Definition std (l : list R) : R :=
  sqrt (mean (squares (map (fun e => e - mean l) l))).
Definition rmin_list (l : list R) : R :=
  match l with [] => 0 | x :: l' => foldr Rmin x l' end.
Definition rmax_list (l : list R) : R :=
  match l with [] => 0 | x :: l' => foldr Rmax x l' end.

Fixpoint insert_sorted (x : R) (l : list R) : list R :=
  match l with
  | [] => [x]
  | y :: l' => if rle x y then x :: l else y :: insert_sorted x l'
  end.
Definition sort_reals (l : list R) : list R := foldr insert_sorted [] l.
Definition median (l : list R) : R :=
  let s := sort_reals l in
  let n := length s in
  if Nat.even n
  then (nth (n / 2 - 1) s 0 + nth (n / 2) s 0) / 2
  else nth (n / 2) s 0.

(** Modelled from the spec: the statistics of an error array (spec
    section 4.4, post-processing; [evo/core/metrics.py] is not part of
    the sources). *)
Definition all_statistics (err : list R) : gmap string R :=
  <["rmse" := rmse err]> (<["mean" := mean err]> (<["median" := median err]>
  (<["std" := std err]> (<["min" := rmin_list err]> (<["max" := rmax_list err]>
  (<["sse" := sse err]> ∅)))))).

(** ** Result Aggregator (spec section 4.5) *)

Definition add_np_array (k : string) (a : ndarray) (r : Result) : Result :=
  mkResult (info r) (stats r) (<[k := a]> (np_arrays r)) (trajectories r).
Definition add_trajectory (k : string) (t : loc) (r : Result) : Result :=
  mkResult (info r) (stats r) (np_arrays r) (<[k := t]> (trajectories r)).
Definition set_info (k v : string) (r : Result) : Result :=
  mkResult (<[k := v]> (info r)) (stats r) (np_arrays r) (trajectories r).

(** Python truthiness of an optional float: [None] and [0.0] are
    false. *)
Definition truthy (o : option R) : bool :=
  match o with
  | None => false
  | Some t => negb (req t 0)
  end.

(** The command-line arguments that [run] reads. *)
Record Args := mkArgs {
  args_t_start : option R;
  args_t_end : option R;
  args_t_max_diff : R;
  args_t_offset : R;
  args_pose_relation : PoseRelation;
  args_align : bool;
  args_correct_scale : bool;
  args_n_to_align : Z;
  args_align_origin : bool
}.

(** ** The same pipeline in binary64

    [ape] once more, with every number a binary64 float and every
    operation the IEEE operation, rounded to nearest, as numpy performs
    it.  Sums run from the first element to the last; a matrix product
    sums each row against each column from left to right.  The parts
    of evo that [ape] calls are modelled from the spec, definition by
    definition as in the real-number embedding.  The arc cosine and
    pi, which the primitive floats do not provide, are parameters next
    to the kernels that are parameters of the real-number embedding. *)
Module B64.

Local Open Scope float_scope.
Local Set Warnings "-inexact-float".

Record Vec3 := mkVec3 { vx : float; vy : float; vz : float }.
Record Mat3 := mkMat3 { row0 : Vec3; row1 : Vec3; row2 : Vec3 }.

Definition vadd (a b : Vec3) : Vec3 :=
  mkVec3 (vx a + vx b) (vy a + vy b) (vz a + vz b).
Definition vsub (a b : Vec3) : Vec3 :=
  mkVec3 (vx a - vx b) (vy a - vy b) (vz a - vz b).
Definition vscale (s : float) (a : Vec3) : Vec3 :=
  mkVec3 (s * vx a) (s * vy a) (s * vz a).
Definition vdot (a b : Vec3) : float :=
  vx a * vx b + vy a * vy b + vz a * vz b.
Definition vnorm (a : Vec3) : float := PrimFloat.sqrt (vdot a a).

Definition mat_id : Mat3 :=
  mkMat3 (mkVec3 1 0 0) (mkVec3 0 1 0) (mkVec3 0 0 1).
Definition mat_col0 (m : Mat3) : Vec3 :=
  mkVec3 (vx (row0 m)) (vx (row1 m)) (vx (row2 m)).
Definition mat_col1 (m : Mat3) : Vec3 :=
  mkVec3 (vy (row0 m)) (vy (row1 m)) (vy (row2 m)).
Definition mat_col2 (m : Mat3) : Vec3 :=
  mkVec3 (vz (row0 m)) (vz (row1 m)) (vz (row2 m)).
Definition mat_transpose (m : Mat3) : Mat3 :=
  mkMat3 (mat_col0 m) (mat_col1 m) (mat_col2 m).
Definition mat_vec (m : Mat3) (v : Vec3) : Vec3 :=
  mkVec3 (vdot (row0 m) v) (vdot (row1 m) v) (vdot (row2 m) v).
Definition vec_mat (v : Vec3) (m : Mat3) : Vec3 :=
  mkVec3 (vdot v (mat_col0 m)) (vdot v (mat_col1 m)) (vdot v (mat_col2 m)).
Definition mat_mul (a b : Mat3) : Mat3 :=
  mkMat3 (vec_mat (row0 a) b) (vec_mat (row1 a) b) (vec_mat (row2 a) b).
Definition mat_scale (s : float) (m : Mat3) : Mat3 :=
  mkMat3 (vscale s (row0 m)) (vscale s (row1 m)) (vscale s (row2 m)).
Definition mat_trace (m : Mat3) : float :=
  vx (row0 m) + vy (row1 m) + vz (row2 m).

Record Pose := mkPose { rot : Mat3; trans : Vec3 }.

Definition se3_compose (a b : Pose) : Pose :=
  mkPose (mat_mul (rot a) (rot b)) (vadd (mat_vec (rot a) (trans b)) (trans a)).
Definition se3_inverse (p : Pose) : Pose :=
  let rt := mat_transpose (rot p) in
  mkPose rt (vscale (-1) (mat_vec rt (trans p))).

Record Sim3 := mkSim3 { sim_rot : Mat3; sim_trans : Vec3; sim_scale : float }.

Record Traj := mkTraj { poses : list Pose; timestamps : option (list float) }.

Definition num_poses (t : Traj) : nat := length (poses t).
Definition positions (t : Traj) : list Vec3 := map trans (poses t).

Fixpoint cumulative_from (acc : float) (prev : Vec3) (ps : list Vec3)
  : list float :=
  match ps with
  | [] => []
  | p :: ps' =>
      let acc' := acc + vnorm (vsub p prev) in
      acc' :: cumulative_from acc' p ps'
  end.

Definition distances_of (ps : list Vec3) : list float :=
  match ps with
  | [] => []
  | p :: ps' => 0 :: cumulative_from 0 p ps'
  end.

Definition distances (t : Traj) : list float := distances_of (positions t).

Inductive ndarray :=
  | Arr1 (xs : list float)
  | Arr2 (rows : list (list float)).

Record Result := mkResult {
  info : gmap string string;
  stats : gmap string float;
  np_arrays : gmap string ndarray;
  trajectories : gmap string loc
}.

Record World := mkWorld { heap : gmap loc Traj; calls : list Call }.

Definition M (A : Type) : Type := World -> (Exc + A) * World.

Definition ret {A} (a : A) : M A := fun w => (inr a, w).
Definition raise {A} (e : Exc) : M A := fun w => (inl e, w).
Definition bind {A B} (m : M A) (k : A -> M B) : M B :=
  fun w => match m w with
           | (inr a, w') => k a w'
           | (inl e, w') => (inl e, w')
           end.

Definition get_obj (l : loc) : M Traj :=
  fun w => match heap w !! l with
           | Some t => (inr t, w)
           | None => (inl InvalidRef, w)
           end.
Definition set_obj (l : loc) (t : Traj) : M unit :=
  fun w => (inr tt, mkWorld (<[l := t]> (heap w)) (calls w)).
Definition log_call (c : Call) : M unit :=
  fun w => (inr tt, mkWorld (heap w) (calls w ++ [c])).

Definition sim3_apply (T : Sim3) (p : Pose) : Pose :=
  mkPose (mat_mul (sim_rot T) (rot p))
         (vadd (vscale (sim_scale T) (mat_vec (sim_rot T) (trans p)))
               (sim_trans T)).

Definition traj_transform (T : Sim3) (t : Traj) : Traj :=
  mkTraj (map (sim3_apply T) (poses t)) (timestamps t).

Definition row4 (r : Vec3) (t : float) : list float := [vx r; vy r; vz r; t].

Definition sim3 (T : Sim3) : ndarray :=
  let sr := mat_scale (sim_scale T) (sim_rot T) in
  Arr2 [ row4 (row0 sr) (vx (sim_trans T));
         row4 (row1 sr) (vy (sim_trans T));
         row4 (row2 sr) (vz (sim_trans T));
         [0; 0; 0; 1] ].

Definition se3 (p : Pose) : ndarray := sim3 (mkSim3 (rot p) (trans p) 1).

Definition fmin (a b : float) : float := if a <? b then a else b.
Definition fmax (a b : float) : float := if b <? a then a else b.
Definition clamp (x lo hi : float) : float := fmax lo (fmin x hi).

(** [len(l)] as a float. *)
Definition float_of_nat (n : nat) : float :=
  PrimFloat.of_uint63 (Uint63.of_Z (Z.of_nat n)).

Definition rsum (l : list float) : float := fold_left PrimFloat.add l 0.
Definition squares (l : list float) : list float := map (fun e => e * e) l.
Definition mean (l : list float) : float := rsum l / float_of_nat (length l).
Definition rmse (l : list float) : float := PrimFloat.sqrt (mean (squares l)).
Definition sse (l : list float) : float := rsum (squares l).
Definition std (l : list float) : float :=
  PrimFloat.sqrt (mean (squares (map (fun e => e - mean l) l))).
Definition rmin_list (l : list float) : float :=
  match l with [] => 0 | x :: l' => foldr fmin x l' end.
Definition rmax_list (l : list float) : float :=
  match l with [] => 0 | x :: l' => foldr fmax x l' end.

Fixpoint insert_sorted (x : float) (l : list float) : list float :=
  match l with
  | [] => [x]
  | y :: l' => if x <=? y then x :: l else y :: insert_sorted x l'
  end.
Definition sort_floats (l : list float) : list float :=
  foldr insert_sorted [] l.
Definition median (l : list float) : float :=
  let s := sort_floats l in
  let n := length s in
  if Nat.even n
  then (nth (n / 2 - 1) s 0 + nth (n / 2) s 0) / 2
  else nth (n / 2) s 0.

Definition all_statistics (err : list float) : gmap string float :=
  <["rmse" := rmse err]> (<["mean" := mean err]> (<["median" := median err]>
  (<["std" := std err]> (<["min" := rmin_list err]> (<["max" := rmax_list err]>
  (<["sse" := sse err]> ∅)))))).

Definition add_np_array (k : string) (a : ndarray) (r : Result) : Result :=
  mkResult (info r) (stats r) (<[k := a]> (np_arrays r)) (trajectories r).
Definition add_trajectory (k : string) (t : loc) (r : Result) : Result :=
  mkResult (info r) (stats r) (np_arrays r) (<[k := t]> (trajectories r)).
Definition set_info (k v : string) (r : Result) : Result :=
  mkResult (<[k := v]> (info r)) (stats r) (np_arrays r) (trajectories r).

Definition nl : string := String (Ascii.ascii_of_nat 10) "".

Section Kernels.

Variable umeyama_alignment :
  list Vec3 -> list Vec3 -> bool -> bool -> option Sim3.
Variable so3_distance : Mat3 -> float.
Variable se3_distance : Pose -> float.
Variable metric_title : PoseRelation -> string.
Variable arccos : float -> float.
Variable pi : float.

Definition rotation_angle (m : Mat3) : float :=
  arccos (clamp ((mat_trace m - 1) / 2) (-1) 1).

Definition align_method (est ref : loc) (correct_scale only_scale : bool)
    (n : Z) : M Sim3 :=
  bind (log_call (CallAlign est ref correct_scale only_scale n)) (fun _ =>
  bind (get_obj est) (fun te =>
  bind (get_obj ref) (fun tr =>
  match umeyama_alignment (first_n n (positions te)) (first_n n (positions tr))
          correct_scale only_scale with
  | None => raise AlignmentError
  | Some T => bind (set_obj est (traj_transform T te)) (fun _ => ret T)
  end))).

Definition align_origin_method (est ref : loc) : M Pose :=
  bind (log_call (CallAlignOrigin est ref)) (fun _ =>
  bind (get_obj est) (fun te =>
  bind (get_obj ref) (fun tr =>
  match poses te, poses tr with
  | pe :: _, pr :: _ =>
      let T := se3_compose pr (se3_inverse pe) in
      bind (set_obj est (traj_transform (mkSim3 (rot T) (trans T) 1) te))
        (fun _ => ret T)
  | _, _ => raise AlignmentError
  end))).

Definition pose_error (rel : PoseRelation) (pref pest : Pose) : float :=
  let E := se3_compose (se3_inverse pref) pest in
  match rel with
  | trans_part => vnorm (trans E)
  | rot_part => so3_distance (rot E)
  | angle_rad => rotation_angle (rot E)
  | angle_deg => rotation_angle (rot E) * 180 / pi
  | full => se3_distance E
  | point_distance => vnorm (vsub (trans pest) (trans pref))
  end.

Definition process_data (rel : PoseRelation) (traj_ref traj_est : loc)
  : M (list float) :=
  bind (get_obj traj_ref) (fun tr =>
  bind (get_obj traj_est) (fun te =>
  if (num_poses tr =? num_poses te)%nat
  then ret (zip_with (pose_error rel) (poses tr) (poses te))
  else raise MetricError)).

Definition get_result (rel : PoseRelation) (err : list float)
    (ref_name est_name : string) : Result :=
  mkResult (<["title" := metric_title rel]> (<["ref_name" := ref_name]>
             (<["est_name" := est_name]> ∅)))
           (all_statistics err)
           (<["error_array" := Arr1 err]> ∅)
           ∅.

Definition ape_align (traj_ref traj_est : loc) (align correct_scale : bool)
    (n_to_align : Z) (align_origin : bool) : M (option ndarray) :=
  let only_scale := correct_scale && negb align in
  if align || correct_scale then
    bind (align_method traj_est traj_ref correct_scale only_scale n_to_align)
      (fun T => ret (Some (sim3 T)))
  else if align_origin then
    bind (align_origin_method traj_est traj_ref) (fun T => ret (Some (se3 T)))
  else ret None.

Definition ape_title (pose_relation : PoseRelation) (align correct_scale : bool)
    (n_to_align : Z) (align_origin : bool) : string :=
  let only_scale := correct_scale && negb align in
  let title := metric_title pose_relation in
  let title :=
    if align && negb correct_scale then
      title +:+ nl +:+ "(with SE(3) Umeyama alignment)"
    else if align && correct_scale then
      title +:+ nl +:+ "(with Sim(3) Umeyama alignment)"
    else if only_scale then
      title +:+ nl +:+ "(scale corrected)"
    else if align_origin then
      title +:+ nl +:+ "(with origin alignment)"
    else
      title +:+ nl +:+ "(not aligned)" in
  if (align || correct_scale) && negb (n_to_align =? -1)%Z then
    title +:+ " (aligned poses: " +:+ pretty n_to_align +:+ ")"
  else title.

Definition ape_time_arrays (tr te : Traj) (ts : list float) (r : Result)
  : Result :=
  let seconds_from_start := map (fun t => t - hd 0 ts) ts in
  let r := add_np_array "seconds_from_start" (Arr1 seconds_from_start) r in
  let r := add_np_array "timestamps" (Arr1 ts) r in
  let distances_from_start :=
    map (fun d => d - hd 0 (distances tr)) (distances tr) in
  let r := add_np_array "distances_from_start" (Arr1 distances_from_start) r in
  add_np_array "distances" (Arr1 (distances te)) r.

Definition ape_add_alignment (a : option ndarray) (r : Result) : Result :=
  match a with
  | Some m => add_np_array "alignment_transformation_sim3" m r
  | None => r
  end.

Definition ape (traj_ref traj_est : loc) (pose_relation : PoseRelation)
    (align correct_scale : bool) (n_to_align : Z) (align_origin : bool)
    (ref_name est_name : string) : M Result :=
  bind (ape_align traj_ref traj_est align correct_scale n_to_align
          align_origin) (fun alignment_transformation =>
  bind (process_data pose_relation traj_ref traj_est) (fun err =>
  let title :=
    ape_title pose_relation align correct_scale n_to_align align_origin in
  let ape_result := get_result pose_relation err ref_name est_name in
  let ape_result := set_info "title" title ape_result in
  let ape_result := add_trajectory ref_name traj_ref ape_result in
  let ape_result := add_trajectory est_name traj_est ape_result in
  bind (get_obj traj_est) (fun te =>
  bind (match timestamps te with
        | Some ts =>
            bind (get_obj traj_ref) (fun tr =>
            ret (ape_time_arrays tr te ts ape_result))
        | None => ret ape_result
        end) (fun ape_result =>
  ret (ape_add_alignment alignment_transformation ape_result))))).

End Kernels.

(** Scenario A of the spec, in binary64. *)
Definition pose_at (x y z : float) : Pose := mkPose mat_id (mkVec3 x y z).

Definition scenario_ref : Traj :=
  mkTraj [pose_at 0 0 0; pose_at 1 0 0; pose_at 2 0 0] (Some [0; 1; 2]).
Definition scenario_est : Traj :=
  mkTraj [pose_at 0.1 0 0; pose_at 1.1 0 0; pose_at 2.1 0 0] (Some [0; 1; 2]).
Definition scenario_world : World :=
  mkWorld (<[1%nat := scenario_est]> (<[0%nat := scenario_ref]> ∅)) [].

(** Instances of the abstract kernels, for closed examples. *)
Definition no_umeyama (_ _ : list Vec3) (_ _ : bool) : option Sim3 := None.
Definition zero_so3 (_ : Mat3) : float := 0.
Definition zero_se3 (_ : Pose) : float := 0.
Definition no_arccos (_ : float) : float := 0.
Definition pi : float := 0x1.921fb54442d18p+1.

(** The error array and the rmse of a result. *)
Definition error_array (r : Result) : list float :=
  match np_arrays r !! "error_array" with
  | Some (Arr1 xs) => xs
  | _ => []
  end.
Definition rmse_of (r : Result) : float := default 0 (stats r !! "rmse").

(** [|x - 0.1| < 1e-15]. *)
Definition near_tenth (x : float) : bool := PrimFloat.abs (x - 0.1) <? 1e-15.

End B64.

Section APE.

(** The numerical kernels that are left abstract: the Umeyama solver
    (a singular value decomposition), given the estimate and reference
    positions and the flags [correct_scale] and [only_scale], and
    failing on degenerate input; the matrix-based distances of the
    relations [rot_part] and [full]; the text of [str(ape_metric)]. *)
Variable umeyama_alignment :
  list Vec3 -> list Vec3 -> bool -> bool -> option Sim3.
Variable so3_distance : Mat3 -> R.
Variable se3_distance : Pose -> R.
Variable metric_title : PoseRelation -> string.

(** Modelled from the spec: [PosePath3D.align], the Umeyama alignment
    of the estimate onto the reference, estimated on the first
    [n] correspondences and applied to the entire trajectory.  [ape]
    keeps using the object it called [align] on, so the transform is
    applied to that object in place; the call returns rotation,
    translation and scale.  ([evo/core/trajectory.py] is not part of
    the sources.) *)
Definition align_method (est ref : loc) (correct_scale only_scale : bool)
    (n : Z) : M Sim3 :=
  log_call (CallAlign est ref correct_scale only_scale n) ;;;
  te <- get_obj est ;;
  tr <- get_obj ref ;;
  match umeyama_alignment (first_n n (positions te)) (first_n n (positions tr))
          correct_scale only_scale with
  | None => raise AlignmentError
  | Some T => set_obj est (traj_transform T te) ;;; ret T
  end.

(** Modelled from the spec: [PosePath3D.align_origin], the rigid
    transform that maps the first pose of the estimate onto the first
    pose of the reference, applied to the estimate in place and
    returned.  ([evo/core/trajectory.py] is not part of the sources.) *)
Definition align_origin_method (est ref : loc) : M Pose :=
  log_call (CallAlignOrigin est ref) ;;;
  te <- get_obj est ;;
  tr <- get_obj ref ;;
  match poses te, poses tr with
  | pe :: _, pr :: _ =>
      let T := se3_compose pr (se3_inverse pe) in
      set_obj est (traj_transform (mkSim3 (rot T) (trans T) 1) te) ;;;
      ret T
  | _, _ => raise AlignmentError
  end.

(** Modelled from the spec: the per-pose error under a pose relation,
    from the relative pose [E = ref^-1 . est] (spec section 4.4). *)
Definition pose_error (rel : PoseRelation) (pref pest : Pose) : R :=
  let E := se3_compose (se3_inverse pref) pest in
  match rel with
  | trans_part => vnorm (trans E)
  | rot_part => so3_distance (rot E)
  | angle_rad => rotation_angle (rot E)
  | angle_deg => rotation_angle (rot E) * 180 / PI
  | full => se3_distance E
  | point_distance => vnorm (vsub (trans pest) (trans pref))
  end.

(** Modelled from the spec: [APE.process_data]; the trajectories must
    have equal length.  ([evo/core/metrics.py] is not part of the
    sources.) *)
Definition process_data (rel : PoseRelation) (traj_ref traj_est : loc)
  : M (list R) :=
  tr <- get_obj traj_ref ;;
  te <- get_obj traj_est ;;
  if (num_poses tr =? num_poses te)%nat
  then ret (zip_with (pose_error rel) (poses tr) (poses te))
  else raise MetricError.

(** Modelled from the spec: [APE.get_result], a fresh result with the
    metadata, the statistics and the raw per-pose error array.
    ([evo/core/metrics.py] and [evo/core/result.py] are not part of the
    sources.) *)
Definition get_result (rel : PoseRelation) (err : list R)
    (ref_name est_name : string) : Result :=
  mkResult (<["title" := metric_title rel]> (<["ref_name" := ref_name]>
             (<["est_name" := est_name]> ∅)))
           (all_statistics err)
           (<["error_array" := Arr1 err]> ∅)
           ∅.

(** ** [ape] ([evo/main_ape.py], lines 180-239) *)

(** The newline character, Python's backslash-n. *)
Definition nl : string := String (Ascii.ascii_of_nat 10) "".

(** Lines 186-195, "Align the trajectories": the value of
    [alignment_transformation]. *)
Definition ape_align (traj_ref traj_est : loc) (align correct_scale : bool)
    (n_to_align : Z) (align_origin : bool) : M (option ndarray) :=
  let only_scale := correct_scale && negb align in
  if align || correct_scale then
    T <- align_method traj_est traj_ref correct_scale only_scale n_to_align ;;
    ret (Some (sim3 T))
  else if align_origin then
    T <- align_origin_method traj_est traj_ref ;;
    ret (Some (se3 T))
  else ret None.

(** Lines 203-215: the title. *)
Definition ape_title (pose_relation : PoseRelation) (align correct_scale : bool)
    (n_to_align : Z) (align_origin : bool) : string :=
  let only_scale := correct_scale && negb align in
  let title := metric_title pose_relation in
  let title :=
    if align && negb correct_scale then
      title +:+ nl +:+ "(with SE(3) Umeyama alignment)"
    else if align && correct_scale then
      title +:+ nl +:+ "(with Sim(3) Umeyama alignment)"
    else if only_scale then
      title +:+ nl +:+ "(scale corrected)"
    else if align_origin then
      title +:+ nl +:+ "(with origin alignment)"
    else
      title +:+ nl +:+ "(not aligned)" in
  if (align || correct_scale) && negb (n_to_align =? -1)%Z then
    title +:+ " (aligned poses: " +:+ pretty n_to_align +:+ ")"
  else title.

(** Lines 225-233: the per-pose arrays of a timestamped estimate. *)
Definition ape_time_arrays (tr te : Traj) (ts : list R) (r : Result) : Result :=
  let seconds_from_start := map (fun t => t - hd 0 ts) ts in
  let r := add_np_array "seconds_from_start" (Arr1 seconds_from_start) r in
  let r := add_np_array "timestamps" (Arr1 ts) r in
  let distances_from_start :=
    map (fun d => d - hd 0 (distances tr)) (distances tr) in
  let r := add_np_array "distances_from_start" (Arr1 distances_from_start) r in
  add_np_array "distances" (Arr1 (distances te)) r.

(** Lines 235-237. *)
Definition ape_add_alignment (a : option ndarray) (r : Result) : Result :=
  match a with
  | Some m => add_np_array "alignment_transformation_sim3" m r
  | None => r
  end.

Definition ape (traj_ref traj_est : loc) (pose_relation : PoseRelation)
    (align correct_scale : bool) (n_to_align : Z) (align_origin : bool)
    (ref_name est_name : string) : M Result :=
  alignment_transformation <-
    ape_align traj_ref traj_est align correct_scale n_to_align align_origin ;;
  err <- process_data pose_relation traj_ref traj_est ;;
  let title :=
    ape_title pose_relation align correct_scale n_to_align align_origin in
  let ape_result := get_result pose_relation err ref_name est_name in
  let ape_result := set_info "title" title ape_result in
  let ape_result := add_trajectory ref_name traj_ref ape_result in
  let ape_result := add_trajectory est_name traj_est ape_result in
  te <- get_obj traj_est ;;
  ape_result <-
    match timestamps te with
    | Some ts =>
        tr <- get_obj traj_ref ;;
        ret (ape_time_arrays tr te ts ape_result)
    | None => ret ape_result
    end ;;
  ret (ape_add_alignment alignment_transformation ape_result).

(** ** [run] ([evo/main_ape.py], lines 242-297)

    The two trajectories are the ones [common.load_trajectories]
    returned.  Logging, plotting and saving are outside the model. *)

(** Lines 258-270: the optional time filter and the synchronisation. *)
Definition run_sync (args : Args) (traj_ref traj_est : loc) : M (loc * loc) :=
  tr <- get_obj traj_ref ;;
  te <- get_obj traj_est ;;
  if is_trajectory tr && is_trajectory te then
    (if truthy (args_t_start args) || truthy (args_t_end args) then
       reduce_to_time_range traj_ref (args_t_start args) (args_t_end args)
     else ret tt) ;;;
    associate_trajectories traj_ref traj_est
      (args_t_max_diff args) (args_t_offset args)
  else ret (traj_ref, traj_est).

Definition run (args : Args) (traj_ref traj_est : loc)
    (ref_name est_name : string) : M Result :=
  synced <- run_sync args traj_ref traj_est ;;
  ape (fst synced) (snd synced) (args_pose_relation args) (args_align args)
      (args_correct_scale args) (args_n_to_align args)
      (args_align_origin args) ref_name est_name.

(** ** Concrete inputs *)

(** Scenario A of the spec: three poses with identity rotation on the
    x axis, the estimate shifted by 0.1. *)
Definition pose_at (x y z : R) : Pose := mkPose mat_id (mkVec3 x y z).

Definition scenario_ref : Traj :=
  mkTraj [pose_at 0 0 0; pose_at 1 0 0; pose_at 2 0 0] (Some [0; 1; 2]).
Definition scenario_est : Traj :=
  mkTraj [pose_at 0.1 0 0; pose_at 1.1 0 0; pose_at 2.1 0 0] (Some [0; 1; 2]).

(** The reference is object 0 and the estimate object 1. *)
Definition scenario_world : World :=
  mkWorld (<[1%nat := scenario_est]> (<[0%nat := scenario_ref]> ∅)) [].

(** Instances of the abstract kernels, for closed examples. *)
Definition no_umeyama (_ _ : list Vec3) (_ _ : bool) : option Sim3 := None.
Definition zero_so3 (_ : Mat3) : R := 0.
Definition zero_se3 (_ : Pose) : R := 0.
Definition plain_title (_ : PoseRelation) : string := "APE".

(** An end time of 0.0 and no start time. *)
Definition args_end_zero : Args :=
  mkArgs None (Some 0) (1 / 100) 0 trans_part false false (-1) false.

(** The alignment-mode descriptions as the specification lists them,
    by requested flags: [align], [correct_scale], [align_origin]. *)
Definition alignment_description (align correct_scale align_origin : bool)
  : string :=
  match align, correct_scale, align_origin with
  | true, false, _ => "(with SE(3) Umeyama alignment)"
  | true, true, _ => "(with Sim(3) Umeyama alignment)"
  | false, true, _ => "(scale corrected)"
  | false, false, true => "(with origin alignment)"
  | false, false, false => "(not aligned)"
  end.

(** The result of [ape] before the per-pose time arrays and the
    alignment matrix are added (lines 217-224). *)
Definition ape_base_result (traj_ref traj_est : loc)
    (pose_relation : PoseRelation) (align correct_scale : bool)
    (n_to_align : Z) (align_origin : bool) (ref_name est_name : string)
    (err : list R) : Result :=
  add_trajectory est_name traj_est
    (add_trajectory ref_name traj_ref
       (set_info "title"
          (ape_title pose_relation align correct_scale n_to_align align_origin)
          (get_result pose_relation err ref_name est_name))).

(** The keys of the per-pose arrays of a result. *)
Definition per_pose_keys : list string :=
  ["error_array"; "seconds_from_start"; "timestamps";
   "distances_from_start"; "distances"].

(** The entries of [xs] whose timestamp in the parallel list [ts]
    satisfies [keep], in order. *)
Fixpoint keep_where {A} (keep : R -> bool) (ts : list R) (xs : list A)
  : list A :=
  match ts, xs with
  | t :: ts', x :: xs' =>
      if keep t then x :: keep_where keep ts' xs' else keep_where keep ts' xs'
  | _, _ => []
  end.

(** ** The rest of [run] *)

(** The reference restricted to the closed time interval, as a value. *)
Definition restrict_to_time_range (t_start t_end : option R) (t : Traj)
  : Traj :=
  match timestamps t with
  | Some ts =>
      mkTraj (keep_where (in_time_range t_start t_end) ts (poses t))
             (Some (keep_where (in_time_range t_start t_end) ts ts))
  | None => t
  end.

(** The world in which [run] starts the association of two
    timestamped trajectories: the reference trimmed in place when a
    bound counts as given, the world as it is otherwise. *)
Definition time_filtered (args : Args) (traj_ref : loc) (tr : Traj)
    (w : World) : World :=
  if truthy (args_t_start args) || truthy (args_t_end args) then
    mkWorld
      (<[traj_ref := restrict_to_time_range (args_t_start args)
                       (args_t_end args) tr]> (heap w))
      (calls w ++ [CallReduceToTimeRange traj_ref (args_t_start args)
                     (args_t_end args)])
  else w.

(** [copy.deepcopy] of a trajectory: a new object with the same
    content. *)
Definition deepcopy (l : loc) : M loc :=
  t <- get_obj l ;;
  new_obj t.

(** Lines 253-284 of [run]: the optional copy of the full reference,
    made before the time filter and the synchronisation, and the
    result.  The copy is what [run] hands to [common.plot_result]. *)
Definition run_plot_full_ref (plot_full_ref : bool) (args : Args)
    (traj_ref traj_est : loc) (ref_name est_name : string)
  : M (option loc * Result) :=
  traj_ref_full <-
    (if plot_full_ref then l <- deepcopy traj_ref ;; ret (Some l)
     else ret None) ;;
  result <- run args traj_ref traj_est ref_name est_name ;;
  ret (traj_ref_full, result).

(** Python's [del result.trajectories[k]]; [None] stands for the
    [KeyError] of a missing key. *)
Definition del_trajectory (k : string) (r : Result) : option Result :=
  match trajectories r !! k with
  | Some _ =>
      Some (mkResult (info r) (stats r) (np_arrays r)
              (delete k (trajectories r)))
  | None => None
  end.

(** What the last block of [run] does with the result. *)
Inductive SaveOutcome :=
  | NotSaved
  | Saved (path : string) (r : Result)
  | SaveKeyError (k : string).

(** Python truthiness of [args.save_results]: [None] and the empty
    string are false. *)
Definition truthy_path (o : option string) : bool :=
  match o with
  | None => false
  | Some "" => false
  | Some _ => true
  end.

(** Lines 291-297 of [run]: unless [SETTINGS.save_traj_in_zip] is set,
    the two trajectories are deleted from the result before it is
    handed to [file_interface.save_res_file]. *)
Definition run_save (save_results : option string) (save_traj_in_zip : bool)
    (ref_name est_name : string) (result : Result) : SaveOutcome :=
  if truthy_path save_results then
    let path := default "" save_results in
    if negb save_traj_in_zip then
      match del_trajectory ref_name result with
      | None => SaveKeyError ref_name
      | Some r1 =>
          match del_trajectory est_name r1 with
          | None => SaveKeyError est_name
          | Some r2 => Saved path r2
          end
      end
    else Saved path result
  else NotSaved.

(** A solver that returns the same transform for every input, and a
    transform to return: the identity rotation with a shift along x. *)
Definition fixed_umeyama (T : Sim3) (_ _ : list Vec3) (_ _ : bool)
  : option Sim3 := Some T.
Definition shift_x : Sim3 := mkSim3 mat_id (mkVec3 1 0 0) 1.

(** Scenario A with a third object: an untimestamped path of one pose. *)
Definition short_path : Traj := mkTraj [pose_at 5 0 0] None.
Definition mixed_world : World :=
  mkWorld (<[2%nat := short_path]> (heap scenario_world)) [].

(** Arguments with a time window from 1 on, and no alignment. *)
Definition args_from_one : Args :=
  mkArgs (Some 1) None (1 / 100) 0 trans_part false false (-1) false.

(** Arguments with a time offset of 10 seconds. *)
Definition args_offset_ten : Args :=
  mkArgs None None (1 / 100) 10 trans_part false false (-1) false.

(** The matrix of a similarity transform as the specification has it,
    [[s.R, t], [0, 1]], entry by entry. *)
Definition similarity_matrix (T : Sim3) : ndarray :=
  let s := sim_scale T in
  let r := sim_rot T in
  let t := sim_trans T in
  Arr2 [ [s * vx (row0 r); s * vy (row0 r); s * vz (row0 r); vx t];
         [s * vx (row1 r); s * vy (row1 r); s * vz (row1 r); vy t];
         [s * vx (row2 r); s * vy (row2 r); s * vz (row2 r); vz t];
         [0; 0; 0; 1] ].

(** Arguments that ask for origin alignment, with no time range. *)
Definition args_origin : Args :=
  mkArgs None None (1 / 100) 0 trans_part false false (-1) true.

(** ** The evaluation monad *)

Lemma bind_inr {A B} (m : M A) (k : A -> M B) w b w' :
  bind m k w = (inr b, w') ->
  exists a w1, m w = (inr a, w1) /\ k a w1 = (inr b, w').
Proof.
  unfold bind. destruct (m w) as [[e | a] w1]; intros H.
  - discriminate.
  - exists a, w1. auto.
Qed.

Lemma bind_run {A B} (m : M A) (k : A -> M B) w a w1 :
  m w = (inr a, w1) -> bind m k w = k a w1.
Proof. unfold bind. intros ->. reflexivity. Qed.

Lemma get_obj_inr l w t w' :
  get_obj l w = (inr t, w') -> w' = w /\ heap w !! l = Some t.
Proof.
  unfold get_obj. destruct (heap w !! l); intros H; inversion H; auto.
Qed.

Lemma get_obj_run l w t : heap w !! l = Some t -> get_obj l w = (inr t, w).
Proof. unfold get_obj. intros ->. reflexivity. Qed.

(** Splits a successful run of a sequence into the runs of its steps. *)
Ltac run_inv H :=
  repeat
    match type of H with
    | bind _ _ _ = (inr _, _) =>
        let a := fresh "a" in
        let w1 := fresh "w" in
        let H1 := fresh "Hrun" in
        apply bind_inr in H; destruct H as (a & w1 & H1 & H)
    end.

(** ** The alignment step of [ape] *)

(** The shape of a trajectory: its timestamps and its number of poses. *)
Lemma traj_transform_shape T t :
  timestamps (traj_transform T t) = timestamps t /\
  num_poses (traj_transform T t) = num_poses t.
Proof. unfold traj_transform, num_poses. simpl. by rewrite length_map. Qed.

(** The alignment calls that [ape_align] makes, whatever its outcome. *)
Lemma ape_align_calls traj_ref traj_est align correct_scale n_to_align
    align_origin w :
  calls (snd (ape_align traj_ref traj_est align correct_scale n_to_align
                align_origin w)) =
  calls w ++
    (if align || correct_scale then
       [CallAlign traj_est traj_ref correct_scale (correct_scale && negb align)
          n_to_align]
     else if align_origin then [CallAlignOrigin traj_est traj_ref]
     else []).
Proof.
  unfold ape_align.
  destruct (align || correct_scale); [| destruct align_origin].
  - unfold align_method, bind, log_call, get_obj, set_obj, raise, ret; simpl.
    destruct (heap w !! traj_est); simpl; [| reflexivity].
    destruct (heap w !! traj_ref); simpl; [| reflexivity].
    destruct (umeyama_alignment _ _ _ _); reflexivity.
  - unfold align_origin_method, bind, log_call, get_obj, set_obj, raise, ret;
      simpl.
    destruct (heap w !! traj_est) as [te |]; simpl; [| reflexivity].
    destruct (heap w !! traj_ref) as [tr |]; simpl; [| reflexivity].
    destruct (poses te); [reflexivity |]. destruct (poses tr); reflexivity.
  - simpl. by rewrite app_nil_r.
Qed.

Ltac unchanged :=
  split; [done | intros ? ?; simplify_eq; eauto].

(** Whatever its outcome, [ape_align] changes no object other than the
    estimate, and keeps the shape of the estimate. *)
Lemma ape_align_frame traj_ref traj_est align correct_scale n_to_align
    align_origin w :
  let w1 := snd (ape_align traj_ref traj_est align correct_scale n_to_align
                   align_origin w) in
  (forall l, l <> traj_est -> heap w1 !! l = heap w !! l) /\
  (forall te, heap w !! traj_est = Some te ->
     exists te', heap w1 !! traj_est = Some te' /\
       timestamps te' = timestamps te /\ num_poses te' = num_poses te).
Proof.
  unfold ape_align.
  destruct (align || correct_scale); [| destruct align_origin].
  - unfold align_method, bind, log_call, get_obj, set_obj, raise, ret; simpl.
    destruct (heap w !! traj_est) as [te |] eqn:He; simpl; [| unchanged].
    destruct (heap w !! traj_ref) as [tr |]; simpl; [| unchanged].
    destruct (umeyama_alignment _ _ _ _) as [T |]; simpl; [| unchanged].
    split.
    + intros l Hl. by rewrite lookup_insert_ne.
    + intros te0 [= <-]. exists (traj_transform T te).
      rewrite lookup_insert_eq. split; [done | apply traj_transform_shape].
  - unfold align_origin_method, bind, log_call, get_obj, set_obj, raise, ret;
      simpl.
    destruct (heap w !! traj_est) as [te |] eqn:He; simpl; [| unchanged].
    destruct (heap w !! traj_ref) as [tr |]; simpl; [| unchanged].
    destruct (poses te) as [| pe pes] eqn:Hpe; simpl; [unchanged |].
    destruct (poses tr) as [| pr prs]; simpl; [unchanged |].
    split.
    + intros l Hl. by rewrite lookup_insert_ne.
    + intros te0 [= <-]. eexists. rewrite lookup_insert_eq.
      split; [done | apply traj_transform_shape].
  - simpl. unchanged.
Qed.

(** Without an alignment mode [ape_align] does nothing. *)
Lemma ape_align_none traj_ref traj_est n_to_align w :
  ape_align traj_ref traj_est false false n_to_align false w = (inr None, w).
Proof. reflexivity. Qed.

(** A successful [ape_align] yields a matrix exactly when a mode was
    requested; the matrix is 4x4. *)
Lemma ape_align_value traj_ref traj_est align correct_scale n_to_align
    align_origin w a w1 :
  ape_align traj_ref traj_est align correct_scale n_to_align align_origin w
    = (inr a, w1) ->
  if align || correct_scale || align_origin
  then exists rows, a = Some (Arr2 rows) /\ length rows = 4%nat
  else a = None.
Proof.
  unfold ape_align.
  destruct (align || correct_scale); [| destruct align_origin]; simpl.
  - intros H. run_inv H. inversion H; subst. eexists. split; reflexivity.
  - intros H. run_inv H. inversion H; subst. eexists. split; reflexivity.
  - intros H. by inversion H.
Qed.

(** ** Runs of [ape] *)

Lemma process_data_world rel traj_ref traj_est w :
  snd (process_data rel traj_ref traj_est w) = w.
Proof.
  unfold process_data, bind, get_obj, ret, raise.
  destruct (heap w !! traj_ref) as [tr |]; [| reflexivity].
  destruct (heap w !! traj_est) as [te |]; [| reflexivity].
  destruct (num_poses tr =? num_poses te)%nat; reflexivity.
Qed.

Lemma process_data_inr rel traj_ref traj_est w err w' :
  process_data rel traj_ref traj_est w = (inr err, w') ->
  w' = w /\
  exists tr te, heap w !! traj_ref = Some tr /\ heap w !! traj_est = Some te /\
    num_poses tr = num_poses te /\
    err = zip_with (pose_error rel) (poses tr) (poses te).
Proof.
  unfold process_data. intros H. run_inv H.
  apply get_obj_inr in Hrun as [-> Hr]. apply get_obj_inr in Hrun0 as [-> He].
  destruct (num_poses a =? num_poses a0)%nat eqn:Hn; [| discriminate].
  inversion H; subst. apply Nat.eqb_eq in Hn. eauto 10.
Qed.

(** After the alignment step [ape] only reads the store. *)
Lemma ape_world traj_ref traj_est rel align correct_scale n_to_align
    align_origin ref_name est_name w :
  snd (ape traj_ref traj_est rel align correct_scale n_to_align align_origin
         ref_name est_name w) =
  snd (ape_align traj_ref traj_est align correct_scale n_to_align
         align_origin w).
Proof.
  unfold ape, bind at 1.
  destruct (ape_align _ _ _ _ _ _ w) as [[e | a] w1]; [reflexivity |].
  unfold bind at 1.
  pose proof (process_data_world rel traj_ref traj_est w1) as Hp.
  destruct (process_data rel traj_ref traj_est w1) as [[e | err] w2];
    simpl in Hp; subst w2; [reflexivity |].
  unfold bind, get_obj, ret.
  destruct (heap w1 !! traj_est) as [te |]; [| reflexivity].
  destruct (timestamps te); [| reflexivity].
  destruct (heap w1 !! traj_ref); reflexivity.
Qed.

(** The anatomy of a successful run of [ape]. *)
Lemma ape_inv traj_ref traj_est rel align correct_scale n_to_align
    align_origin ref_name est_name w res w' :
  ape traj_ref traj_est rel align correct_scale n_to_align align_origin
      ref_name est_name w = (inr res, w') ->
  exists a tr te,
    ape_align traj_ref traj_est align correct_scale n_to_align align_origin w
      = (inr a, w') /\
    heap w' !! traj_ref = Some tr /\ heap w' !! traj_est = Some te /\
    num_poses tr = num_poses te /\
    res = ape_add_alignment a
            (let base :=
               ape_base_result traj_ref traj_est rel align correct_scale
                 n_to_align align_origin ref_name est_name
                 (zip_with (pose_error rel) (poses tr) (poses te)) in
             match timestamps te with
             | Some ts => ape_time_arrays tr te ts base
             | None => base
             end).
Proof.
  unfold ape. intros H. run_inv H.
  apply process_data_inr in Hrun0 as [-> (tr & te & Hr & He & Hn & ->)].
  apply get_obj_inr in Hrun1 as [-> He'].
  rewrite He in He'. injection He' as <-.
  exists a, tr, te. unfold ape_base_result.
  destruct (timestamps te) as [ts |].
  - run_inv Hrun2. apply get_obj_inr in Hrun0 as [-> Hr'].
    rewrite Hr in Hr'. injection Hr' as <-.
    inversion Hrun2; subst. inversion H; subst. auto 10.
  - inversion Hrun2; subst. inversion H; subst. auto 10.
Qed.

(** A run of [ape] without alignment on trajectories of equal length. *)
Lemma ape_unaligned_run traj_ref traj_est rel n_to_align ref_name est_name
    w tr te :
  heap w !! traj_ref = Some tr -> heap w !! traj_est = Some te ->
  num_poses tr = num_poses te ->
  ape traj_ref traj_est rel false false n_to_align false ref_name est_name w =
  (inr (let base :=
          ape_base_result traj_ref traj_est rel false false n_to_align false
            ref_name est_name
            (zip_with (pose_error rel) (poses tr) (poses te)) in
        match timestamps te with
        | Some ts => ape_time_arrays tr te ts base
        | None => base
        end), w).
Proof.
  intros Hr He Hn.
  unfold ape, ape_base_result, process_data, bind, get_obj, ret. simpl.
  rewrite Hr, He, Hn, Nat.eqb_refl, He.
  destruct (timestamps te) as [ts |]; [rewrite Hr |]; reflexivity.
Qed.

(** ** The arrays of a result *)

Lemma np_arrays_add_alignment a r :
  np_arrays (ape_add_alignment a r) =
  match a with
  | Some m => <["alignment_transformation_sim3" := m]> (np_arrays r)
  | None => np_arrays r
  end.
Proof. by destruct a. Qed.

Lemma np_arrays_time_arrays tr te ts r :
  np_arrays (ape_time_arrays tr te ts r) =
  <["distances" := Arr1 (distances te)]>
    (<["distances_from_start" :=
         Arr1 (map (fun d => d - hd 0 (distances tr)) (distances tr))]>
       (<["timestamps" := Arr1 ts]>
          (<["seconds_from_start" := Arr1 (map (fun t => t - hd 0 ts) ts)]>
             (np_arrays r)))).
Proof. reflexivity. Qed.

Lemma np_arrays_base traj_ref traj_est rel align correct_scale n_to_align
    align_origin ref_name est_name err :
  np_arrays (ape_base_result traj_ref traj_est rel align correct_scale
               n_to_align align_origin ref_name est_name err) =
  <["error_array" := Arr1 err]> ∅.
Proof. reflexivity. Qed.

Lemma trajectories_add_alignment a r :
  trajectories (ape_add_alignment a r) = trajectories r.
Proof. by destruct a. Qed.

Lemma info_add_alignment a r : info (ape_add_alignment a r) = info r.
Proof. by destruct a. Qed.

Lemma length_cumulative_from acc prev ps :
  length (cumulative_from acc prev ps) = length ps.
Proof.
  revert acc prev. induction ps as [| p ps IH]; intros acc prev; simpl.
  - reflexivity.
  - by rewrite IH.
Qed.

Lemma length_distances t : length (distances t) = num_poses t.
Proof.
  unfold distances, distances_of, positions, num_poses.
  destruct (poses t) as [| p ps]; simpl; [reflexivity |].
  by rewrite length_cumulative_from, length_map.
Qed.

(** Rewrites the arrays of the result of a run to a chain of inserts. *)
Ltac arrays_of_result :=
  rewrite ?np_arrays_add_alignment, ?np_arrays_time_arrays, ?np_arrays_base.

(** ** Claims on [ape] *)

(** C2. Whatever the outcome of [ape], the alignment calls it makes are:
    one Umeyama alignment when [align] or [correct_scale] is set, in
    scale-only mode exactly when [correct_scale] is set and [align] is
    not; otherwise one origin alignment when [align_origin] is set;
    otherwise none.  When [align] or [correct_scale] is set, the value
    of [align_origin] changes nothing. *)
Theorem ape_alignment_modes traj_ref traj_est rel align correct_scale
    n_to_align align_origin ref_name est_name w :
  calls (snd (ape traj_ref traj_est rel align correct_scale n_to_align
                align_origin ref_name est_name w)) =
    calls w ++
      (if align || correct_scale then
         [CallAlign traj_est traj_ref correct_scale
            (correct_scale && negb align) n_to_align]
       else if align_origin then [CallAlignOrigin traj_est traj_ref]
       else []) /\
  ape traj_ref traj_est rel true correct_scale n_to_align align_origin
      ref_name est_name w =
    ape traj_ref traj_est rel true correct_scale n_to_align false
      ref_name est_name w /\
  ape traj_ref traj_est rel align true n_to_align align_origin
      ref_name est_name w =
    ape traj_ref traj_est rel align true n_to_align false
      ref_name est_name w.
Proof.
  split; [| split].
  - rewrite ape_world. apply ape_align_calls.
  - by destruct correct_scale.
  - by destruct align.
Qed.

(** C6. The title stored in the result of [ape] is the description of
    the pose relation, a newline and exactly one alignment-mode
    description; the suffix with the number of aligned poses follows
    exactly when Umeyama alignment was requested and [n_to_align] is
    not -1. *)
Theorem ape_title_info traj_ref traj_est rel align correct_scale n_to_align
    align_origin ref_name est_name w res w' :
  ape traj_ref traj_est rel align correct_scale n_to_align align_origin
      ref_name est_name w = (inr res, w') ->
  info res !! "title" =
    Some (let described :=
            metric_title rel +:+ nl +:+
            alignment_description align correct_scale align_origin in
          if (align || correct_scale) && bool_decide (n_to_align <> (-1)%Z)
          then described +:+ " (aligned poses: " +:+ pretty n_to_align +:+ ")"
          else described).
Proof.
  intros H. apply ape_inv in H as (a & tr & te & _ & _ & _ & _ & ->).
  rewrite info_add_alignment.
  assert (Hinfo : forall r0,
    info (match timestamps te with
          | Some ts => ape_time_arrays tr te ts r0
          | None => r0
          end) = info r0) by (intros r0; by destruct (timestamps te)).
  cbv zeta. rewrite Hinfo. unfold ape_base_result. simpl.
  rewrite lookup_insert_eq. f_equal. unfold ape_title.
  replace (negb (n_to_align =? -1)%Z) with (bool_decide (n_to_align <> (-1)%Z)).
  - by destruct align, correct_scale, align_origin.
  - destruct (Z.eqb_spec n_to_align (-1)).
    + by rewrite bool_decide_eq_false_2 by auto.
    + by rewrite bool_decide_eq_true_2.
Qed.

(** C8, as amended. The result of [ape] holds the estimate under
    [est_name], and the reference under [ref_name] whenever the two
    names differ. *)
Theorem ape_attached_trajectories traj_ref traj_est rel align correct_scale
    n_to_align align_origin ref_name est_name w res w' :
  ape traj_ref traj_est rel align correct_scale n_to_align align_origin
      ref_name est_name w = (inr res, w') ->
  trajectories res !! est_name = Some traj_est /\
  (ref_name <> est_name -> trajectories res !! ref_name = Some traj_ref).
Proof.
  intros H. apply ape_inv in H as (a & tr & te & _ & _ & _ & _ & ->).
  rewrite trajectories_add_alignment.
  assert (Htr : forall r0,
    trajectories (match timestamps te with
                  | Some ts => ape_time_arrays tr te ts r0
                  | None => r0
                  end) = trajectories r0)
    by (intros r0; by destruct (timestamps te)).
  cbv zeta. rewrite Htr. unfold ape_base_result. simpl. split.
  - apply lookup_insert_eq.
  - intros Hne. rewrite lookup_insert_ne by auto. apply lookup_insert_eq.
Qed.

(** C9. When [ape] returns, the four per-pose arrays are stored exactly
    when the estimate is timestamped, with these contents (the
    trajectories are the objects as [ape] leaves them): the timestamps
    of the estimate minus the first of them, the timestamps of the
    estimate, the distances of the reference minus the first of them,
    and the distances of the estimate. *)
Theorem ape_time_arrays_stored traj_ref traj_est rel align correct_scale
    n_to_align align_origin ref_name est_name w res w' tr te :
  ape traj_ref traj_est rel align correct_scale n_to_align align_origin
      ref_name est_name w = (inr res, w') ->
  heap w' !! traj_ref = Some tr ->
  heap w' !! traj_est = Some te ->
  match timestamps te with
  | Some ts =>
      np_arrays res !! "seconds_from_start" =
        Some (Arr1 (map (fun t => t - hd 0 ts) ts)) /\
      np_arrays res !! "timestamps" = Some (Arr1 ts) /\
      np_arrays res !! "distances_from_start" =
        Some (Arr1 (map (fun d => d - hd 0 (distances tr)) (distances tr))) /\
      np_arrays res !! "distances" = Some (Arr1 (distances te))
  | None =>
      np_arrays res !! "seconds_from_start" = None /\
      np_arrays res !! "timestamps" = None /\
      np_arrays res !! "distances_from_start" = None /\
      np_arrays res !! "distances" = None
  end.
Proof.
  intros H Hr He.
  apply ape_inv in H as (a & tr0 & te0 & _ & Hr0 & He0 & _ & ->).
  rewrite Hr in Hr0. rewrite He in He0. simplify_eq. cbv zeta.
  destruct (timestamps te0) as [ts |]; arrays_of_result;
    destruct a; by simplify_map_eq.
Qed.

(** A result of [ape] holds an array of four rows under the key
    [alignment_transformation_sim3] when an alignment mode was
    requested, and nothing under that key otherwise. *)
Lemma ape_alignment_rows traj_ref traj_est rel align correct_scale
    n_to_align align_origin ref_name est_name w res w' :
  ape traj_ref traj_est rel align correct_scale n_to_align align_origin
      ref_name est_name w = (inr res, w') ->
  if align || correct_scale || align_origin
  then exists rows,
         np_arrays res !! "alignment_transformation_sim3" = Some (Arr2 rows) /\
         length rows = 4%nat
  else np_arrays res !! "alignment_transformation_sim3" = None.
Proof.
  intros H. apply ape_inv in H as (a & tr & te & Ha & _ & _ & _ & ->).
  apply ape_align_value in Ha. cbv zeta.
  destruct (align || correct_scale || align_origin).
  - destruct Ha as (rows & -> & Hlen). exists rows.
    arrays_of_result. by rewrite lookup_insert_eq.
  - subst a. destruct (timestamps te) as [ts |]; arrays_of_result;
      by simplify_map_eq.
Qed.

(** The alignment step of a successful run of [ape], mode by mode: the
    transform, the matrix returned and the store left behind. *)
Lemma ape_align_inr traj_ref traj_est align correct_scale n_to_align
    align_origin w a w1 :
  ape_align traj_ref traj_est align correct_scale n_to_align align_origin w
    = (inr a, w1) ->
  if align || correct_scale then
    exists tr te T,
      heap w !! traj_ref = Some tr /\ heap w !! traj_est = Some te /\
      umeyama_alignment (first_n n_to_align (positions te))
        (first_n n_to_align (positions tr)) correct_scale
        (correct_scale && negb align) = Some T /\
      a = Some (sim3 T) /\
      heap w1 = <[traj_est := traj_transform T te]> (heap w)
  else if align_origin then
    exists tr te pe pes pr prs,
      heap w !! traj_ref = Some tr /\ heap w !! traj_est = Some te /\
      poses te = pe :: pes /\ poses tr = pr :: prs /\
      let T := se3_compose pr (se3_inverse pe) in
      a = Some (se3 T) /\
      heap w1 = <[traj_est := traj_transform (mkSim3 (rot T) (trans T) 1) te]>
                  (heap w)
  else a = None /\ w1 = w.
Proof.
  unfold ape_align.
  destruct (align || correct_scale); [| destruct align_origin].
  - unfold align_method, bind, log_call, get_obj, set_obj, raise, ret; simpl.
    destruct (heap w !! traj_est) as [te |]; simpl; [| done].
    destruct (heap w !! traj_ref) as [tr |]; simpl; [| done].
    destruct (umeyama_alignment _ _ _ _) as [T |] eqn:Hsolve; simpl; [| done].
    intros [= <- <-]. by exists tr, te, T.
  - unfold align_origin_method, bind, log_call, get_obj, set_obj, raise, ret;
      simpl.
    destruct (heap w !! traj_est) as [te |]; simpl; [| done].
    destruct (heap w !! traj_ref) as [tr |]; simpl; [| done].
    destruct (poses te) as [| pe pes] eqn:Hpe; simpl; [done |].
    destruct (poses tr) as [| pr prs] eqn:Hpr; simpl; [done |].
    intros [= <- <-]. by exists tr, te, pe, pes, pr, prs.
  - by intros [= <- <-].
Qed.

(** [lie_algebra.sim3] builds the matrix of the transform, entry by
    entry. *)
Lemma sim3_similarity_matrix T : sim3 T = similarity_matrix T.
Proof. reflexivity. Qed.

(** C10. The result of [ape] holds an array under the key
    [alignment_transformation_sim3] exactly when an alignment mode was
    requested, and the array is the 4x4 matrix [[s.R, t], [0, 1]] of
    the very transform applied to the estimate: the one the Umeyama
    solver returned, for [align] or [correct_scale]; otherwise, for
    [align_origin], the rigid transform from the first pose of the
    estimate to the first pose of the reference; without an alignment
    mode the key is absent and nothing is transformed. *)
Theorem ape_alignment_array traj_ref traj_est rel align correct_scale
    n_to_align align_origin ref_name est_name w res w' :
  ape traj_ref traj_est rel align correct_scale n_to_align align_origin
      ref_name est_name w = (inr res, w') ->
  if align || correct_scale then
    exists tr te T,
      heap w !! traj_ref = Some tr /\ heap w !! traj_est = Some te /\
      umeyama_alignment (first_n n_to_align (positions te))
        (first_n n_to_align (positions tr)) correct_scale
        (correct_scale && negb align) = Some T /\
      heap w' !! traj_est = Some (traj_transform T te) /\
      np_arrays res !! "alignment_transformation_sim3"
        = Some (similarity_matrix T)
  else if align_origin then
    exists tr te pe pes pr prs,
      heap w !! traj_ref = Some tr /\ heap w !! traj_est = Some te /\
      poses te = pe :: pes /\ poses tr = pr :: prs /\
      let T := se3_compose pr (se3_inverse pe) in
      heap w' !! traj_est
        = Some (traj_transform (mkSim3 (rot T) (trans T) 1) te) /\
      np_arrays res !! "alignment_transformation_sim3"
        = Some (similarity_matrix (mkSim3 (rot T) (trans T) 1))
  else np_arrays res !! "alignment_transformation_sim3" = None /\ w' = w.
Proof.
  intros H. apply ape_inv in H as (a & tr0 & te0 & Ha & _ & _ & _ & ->).
  apply ape_align_inr in Ha.
  assert (Hkey : forall r0,
    np_arrays (ape_add_alignment a
                 (match timestamps te0 with
                  | Some ts => ape_time_arrays tr0 te0 ts r0
                  | None => r0
                  end)) !! "alignment_transformation_sim3" =
    match a with
    | Some m => Some m
    | None => np_arrays r0 !! "alignment_transformation_sim3"
    end).
  { intros r0.
    destruct (timestamps te0), a; arrays_of_result; by simplify_map_eq. }
  cbv zeta. rewrite Hkey. clear Hkey.
  destruct (align || correct_scale); [| destruct align_origin].
  - destruct Ha as (tr & te & T & Hr & He & Hsolve & -> & Hheap).
    exists tr, te, T. rewrite Hheap, lookup_insert_eq.
    by rewrite sim3_similarity_matrix.
  - destruct Ha as (tr & te & pe & pes & pr & prs & Hr & He & Hpe & Hpr & Ha).
    cbv zeta in Ha. destruct Ha as [-> Hheap].
    exists tr, te, pe, pes, pr, prs. rewrite Hheap, lookup_insert_eq.
    unfold se3. by rewrite sim3_similarity_matrix.
  - destruct Ha as [-> ->]. split; [| done].
    arrays_of_result. by simplify_map_eq.
Qed.

(** ** The Synchronizer *)

(** The scan returns the running best or an entry of the scanned list,
    with its distance. *)
Lemma closest_from_spec ta offset tbs :
  forall best best_diff j,
    let r := closest_from ta offset best best_diff j tbs in
    (r = (best, best_diff)) \/
    (exists b, tbs !! (fst r - j)%nat = Some b /\ (j <= fst r)%nat /\
               snd r = Rabs (ta - (b + offset))).
Proof.
  induction tbs as [| tb tbs IH]; intros best best_diff j; simpl.
  - by left.
  - destruct (rlt (Rabs (ta - (tb + offset))) best_diff).
    + right.
      destruct (IH j (Rabs (ta - (tb + offset))) (S j)) as [-> | (b & Hb & Hj & Hd)].
      * exists tb. simpl. by rewrite Nat.sub_diag.
      * exists b. split; [| split; [lia | done]].
        replace (fst (closest_from ta offset j (Rabs (ta - (tb + offset)))
                        (S j) tbs) - j)%nat
          with (S (fst (closest_from ta offset j (Rabs (ta - (tb + offset)))
                          (S j) tbs) - S j)) by lia.
        done.
    + destruct (IH best best_diff (S j)) as [-> | (b & Hb & Hj & Hd)].
      * by left.
      * right. exists b. split; [| split; [lia | done]].
        replace (fst (closest_from ta offset best best_diff (S j) tbs) - j)%nat
          with (S (fst (closest_from ta offset best best_diff (S j) tbs) - S j))
          by lia.
        done.
Qed.

(** The closest timestamp is an entry of B, at the returned distance. *)
Lemma closest_Some ta offset tbs j d :
  closest ta offset tbs = Some (j, d) ->
  exists b, tbs !! j = Some b /\ d = Rabs (ta - (b + offset)).
Proof.
  destruct tbs as [| tb tbs]; simpl; [discriminate |].
  intros [= H].
  destruct (closest_from_spec ta offset tbs 0%nat
              (Rabs (ta - (tb + offset))) 1%nat) as [Hr | (b & Hb & Hj & Hd)];
    rewrite H in *; simpl in *.
  - injection Hr as -> ->. by exists tb.
  - exists b. split; [| done].
    destruct j as [| j]; [lia |]. simpl in *. by rewrite Nat.sub_0_r in Hb.
Qed.

(** The greedy assignment: indices in range, every index of B used at
    most once, and at most one match per timestamp of A. *)
Lemma matching_from_spec max_diff offset tbs :
  forall tas used i,
    let ms := matching_from max_diff offset tbs used i tas in
    Forall (fun m => (i <= fst m < i + length tas)%nat /\
                     (snd m < length tbs)%nat /\ snd m ∉ used) ms /\
    NoDup (ms.*2) /\
    (length ms <= length tas)%nat.
Proof.
  induction tas as [| ta tas IH]; intros used i; simpl.
  - split; [constructor | split; [constructor | done]].
  - assert (Hskip :
      let ms := matching_from max_diff offset tbs used (S i) tas in
      Forall (fun m => (i <= fst m < i + S (length tas))%nat /\
                       (snd m < length tbs)%nat /\ snd m ∉ used) ms /\
      NoDup (ms.*2) /\ (length ms <= S (length tas))%nat).
    { destruct (IH used (S i)) as (Hall & Hnd & Hlen).
      split; [| split; [done | simpl; lia]].
      eapply Forall_impl; [exact Hall |]. simpl. intros m (? & ? & ?).
      split; [lia | by split]. }
    destruct (closest ta offset tbs) as [[j d] |] eqn:Hc; [| exact Hskip].
    destruct (rle d max_diff && bool_decide (j ∉ used)) eqn:Hacc;
      [| exact Hskip].
    apply andb_true_iff in Hacc as [_ Hj]. apply bool_decide_eq_true in Hj.
    apply closest_Some in Hc as (b & Hb & _).
    apply lookup_lt_Some in Hb.
    destruct (IH ({[j]} ∪ used) (S i)) as (Hall & Hnd & Hlen).
    split; [| split].
    + constructor; [simpl; split; [lia | done] |].
      eapply Forall_impl; [exact Hall |]. simpl. intros m (? & ? & Hm).
      split; [lia | split; [done |]].
      intros Hu. apply Hm, elem_of_union. by right.
    + simpl. apply NoDup_cons. split; [| done].
      intros Hin. apply list_elem_of_fmap in Hin as ([a j'] & -> & Hin).
      rewrite Forall_forall in Hall. apply Hall in Hin as (_ & _ & Hm).
      simpl in Hm. apply Hm, elem_of_union. left. by apply elem_of_singleton.
    + simpl. lia.
Qed.

(** No match at all when every pair of timestamps is out of tolerance. *)
Lemma matching_from_none max_diff offset tbs :
  forall tas used i,
    (forall a b, a ∈ tas -> b ∈ tbs -> max_diff < Rabs (a - (b + offset))) ->
    matching_from max_diff offset tbs used i tas = [].
Proof.
  induction tas as [| ta tas IH]; intros used i Hfar; simpl; [done |].
  assert (Hrest : matching_from max_diff offset tbs used (S i) tas = []).
  { apply IH. intros a b Ha Hb. apply Hfar; [by right | done]. }
  destruct (closest ta offset tbs) as [[j d] |] eqn:Hc; [| exact Hrest].
  apply closest_Some in Hc as (b & Hb & ->).
  assert (Hlt : max_diff < Rabs (ta - (b + offset))).
  { apply Hfar; [by left | by eapply list_elem_of_lookup_2]. }
  unfold rle. destruct (Rle_dec _ _) as [Hle | _]; [lra | exact Hrest].
Qed.

(** The number of matches is at most the length of either input. *)
Lemma matching_length tas tbs max_diff offset :
  (length (matching_time_indices tas tbs max_diff offset)
   <= length tas `min` length tbs)%nat.
Proof.
  unfold matching_time_indices.
  destruct (matching_from_spec max_diff offset tbs tas ∅ 0%nat)
    as (Hall & Hnd & Hlen).
  apply Nat.min_glb; [done |].
  assert (Hsub : (matching_from max_diff offset tbs ∅ 0%nat tas).*2
                  ⊆+ seq 0%nat (length tbs)).
  { apply NoDup_submseteq; [done |].
    intros j Hj. apply list_elem_of_fmap in Hj as (m & -> & Hm).
    rewrite Forall_forall in Hall. apply Hall in Hm. apply elem_of_seq. lia. }
  apply submseteq_length in Hsub.
  by rewrite length_fmap, length_seq in Hsub.
Qed.

(** Restriction by indices in range succeeds and has one entry per
    index. *)
Lemma select_in_range {A} (ids : list nat) (l : list A) :
  Forall (fun i => (i < length l)%nat) ids ->
  exists l', select ids l = Some l' /\ length l' = length ids.
Proof.
  intros Hall. unfold select.
  destruct (mapM (fun i => l !! i) ids) as [l' |] eqn:Hm.
  - exists l'. split; [done |]. symmetry. by eapply length_mapM.
  - exfalso. assert (Hs : is_Some (mapM (fun i => l !! i) ids)).
    { apply mapM_is_Some. eapply Forall_impl; [exact Hall |].
      simpl. intros i Hi. by apply lookup_lt_is_Some. }
    rewrite Hm in Hs. by destruct Hs.
Qed.

Lemma reduce_to_ids_in_range ids t :
  wf_traj t ->
  Forall (fun i => (i < num_poses t)%nat) ids ->
  exists t', reduce_to_ids ids t = inr t' /\ num_poses t' = length ids.
Proof.
  unfold wf_traj, reduce_to_ids, num_poses. intros Hwf Hall.
  destruct (select_in_range ids (poses t) Hall) as (ps & -> & Hps).
  destruct (timestamps t) as [ts |]; [| by eexists].
  rewrite <- Hwf in Hall.
  destruct (select_in_range ids ts Hall) as (ts' & -> & _). by eexists.
Qed.

(** A run of the Synchronizer on two timestamped trajectories: it
    fails with [AssociationError] when nothing matches, and otherwise
    returns two new objects with one pose per match. *)
Lemma associate_trajectories_run first second max_diff offset w ta tb tas tbs :
  heap w !! first = Some ta -> heap w !! second = Some tb ->
  timestamps ta = Some tas -> timestamps tb = Some tbs ->
  wf_traj ta -> wf_traj tb ->
  let ms := matching_time_indices tas tbs max_diff offset in
  let w0 :=
    mkWorld (heap w) (calls w ++ [CallAssociate first second max_diff offset]) in
  (ms = [] /\
   associate_trajectories first second max_diff offset w
     = (inl AssociationError, w0)) \/
  (ms <> [] /\
   exists ta' tb',
     reduce_to_ids (ms.*1) ta = inr ta' /\
     reduce_to_ids (ms.*2) tb = inr tb' /\
     num_poses ta' = length ms /\ num_poses tb' = length ms /\
     let la := fresh (dom (heap w)) in
     let lb := fresh (dom (<[la := ta']> (heap w))) in
     associate_trajectories first second max_diff offset w
       = (inr (la, lb),
          mkWorld (<[lb := tb']> (<[la := ta']> (heap w))) (calls w0))).
Proof.
  intros Hfirst Hsecond Htas Htbs Hwfa Hwfb ms w0.
  unfold associate_trajectories, bind, log_call, get_obj. simpl.
  rewrite Hfirst. simpl. rewrite Hsecond. simpl. rewrite Htas, Htbs. fold ms.
  destruct ms as [| m ms'] eqn:Hms; [left; by split | right].
  split; [done |]. rewrite <- Hms.
  destruct (matching_from_spec max_diff offset tbs tas ∅ 0%nat)
    as (Hall & _ & _).
  fold (matching_time_indices tas tbs max_diff offset) in Hall. fold ms in Hall.
  assert (Hwa := Hwfa). assert (Hwb := Hwfb).
  unfold wf_traj in Hwa, Hwb. rewrite Htas in Hwa. rewrite Htbs in Hwb.
  destruct (reduce_to_ids_in_range (ms.*1) ta Hwfa) as (ta' & Ha & Hna).
  { apply Forall_fmap. eapply Forall_impl; [exact Hall |].
    unfold num_poses. simpl. intros ? ?. lia. }
  destruct (reduce_to_ids_in_range (ms.*2) tb Hwfb) as (tb' & Hb & Hnb).
  { apply Forall_fmap. eapply Forall_impl; [exact Hall |].
    unfold num_poses. simpl. intros ? ?. lia. }
  rewrite length_fmap in Hna, Hnb.
  exists ta', tb'. subst ms. rewrite Ha, Hb. unfold lift_exc. simpl.
  rewrite Hms in *. auto.
Qed.

(** Whatever its outcome, the Synchronizer leaves every object of the
    store as it was; the references it returns are new. *)
Lemma associate_trajectories_frame first second max_diff offset w :
  let out := associate_trajectories first second max_diff offset w in
  heap w ⊆ heap (snd out) /\
  forall la lb, fst out = inr (la, lb) ->
    heap w !! la = None /\ heap w !! lb = None /\ la <> lb.
Proof.
  unfold associate_trajectories, bind, log_call, get_obj, lift_exc, new_obj,
    raise, ret. simpl.
  destruct (heap w !! first) as [ta |]; simpl; [| by split].
  destruct (heap w !! second) as [tb |]; simpl; [| by split].
  destruct (timestamps ta) as [tas |]; simpl; [| by split].
  destruct (timestamps tb) as [tbs |]; simpl; [| by split].
  destruct (matching_time_indices tas tbs max_diff offset) as [| m ms];
    simpl; [by split |].
  destruct (reduce_to_ids _ ta) as [e | ta']; simpl; [by split |].
  destruct (reduce_to_ids _ tb) as [e | tb']; simpl; [by split |].
  set (la := fresh (dom (heap w))).
  set (lb := fresh (dom (<[la := ta']> (heap w)))).
  assert (Hla : heap w !! la = None) by apply not_elem_of_dom, is_fresh.
  assert (Hlb : <[la := ta']> (heap w) !! lb = None)
    by apply not_elem_of_dom, is_fresh.
  assert (Hne : la <> lb).
  { intros <-. by rewrite lookup_insert_eq in Hlb. }
  split.
  - etrans; [by apply (insert_subseteq (heap w) la ta') |].
    by apply insert_subseteq.
  - intros la' lb' [= <- <-]. rewrite lookup_insert_ne in Hlb by done. done.
Qed.

(** The scan never returns a distance larger than the running best or
    than the distance to any scanned timestamp. *)
Lemma closest_from_min ta offset tbs :
  forall best best_diff j,
    let r := closest_from ta offset best best_diff j tbs in
    snd r <= best_diff /\
    forall b, b ∈ tbs -> snd r <= Rabs (ta - (b + offset)).
Proof.
  induction tbs as [| tb tbs IH]; intros best best_diff j; simpl.
  - split; [lra |]. intros b Hb. by apply elem_of_nil in Hb.
  - unfold rlt. destruct (Rlt_dec (Rabs (ta - (tb + offset))) best_diff)
      as [Hlt | Hge].
    + destruct (IH j (Rabs (ta - (tb + offset))) (S j)) as [Hbest Hall].
      split; [lra |]. intros b Hb. apply elem_of_cons in Hb as [-> | Hb];
        [exact Hbest | by apply Hall].
    + destruct (IH best best_diff (S j)) as [Hbest Hall].
      split; [exact Hbest |]. intros b Hb.
      apply elem_of_cons in Hb as [-> | Hb]; [lra | by apply Hall].
Qed.

(** The closest timestamp is at least as close as every timestamp of
    B. *)
Lemma closest_min ta offset tbs j d :
  closest ta offset tbs = Some (j, d) ->
  forall b, b ∈ tbs -> d <= Rabs (ta - (b + offset)).
Proof.
  destruct tbs as [| tb tbs]; simpl; [discriminate |].
  intros [= H] b Hb.
  destruct (closest_from_min ta offset tbs 0%nat
              (Rabs (ta - (tb + offset))) 1%nat) as [Hbest Hall].
  rewrite H in Hbest, Hall. simpl in Hbest, Hall.
  apply elem_of_cons in Hb as [-> | Hb]; [exact Hbest | by apply Hall].
Qed.

(** Starting with no index of B used, the greedy assignment finds a
    match as soon as some pair of timestamps is within tolerance. *)
Lemma matching_from_some max_diff offset tbs :
  forall tas i,
    (exists a b, a ∈ tas /\ b ∈ tbs /\ Rabs (a - (b + offset)) <= max_diff) ->
    matching_from max_diff offset tbs ∅ i tas <> [].
Proof.
  induction tas as [| ta tas IH]; intros i (a & b & Ha & Hb & Hclose).
  - by apply elem_of_nil in Ha.
  - simpl. destruct (closest ta offset tbs) as [[j d] |] eqn:Hc.
    + rewrite bool_decide_eq_true_2 by apply not_elem_of_empty.
      rewrite andb_true_r. unfold rle.
      destruct (Rle_dec d max_diff) as [Hle | Hgt]; [done |].
      apply IH. exists a, b. split; [| done].
      apply elem_of_cons in Ha as [-> | Ha]; [| done].
      exfalso. apply Hgt. pose proof (closest_min _ _ _ _ _ Hc b Hb). lra.
    + destruct tbs; [by apply elem_of_nil in Hb | discriminate].
Qed.

(** C5. On timestamped trajectories A and B the Synchronizer either
    fails with [AssociationError], leaving the store as it was, or
    returns two new trajectories of equal, positive length at most
    [min (len A) (len B)]; it fails with [AssociationError] when no
    pair of timestamps is within the tolerance, and it returns two
    trajectories when some pair is. *)
Theorem associate_trajectories_lengths first second max_diff offset w
    ta tb tas tbs :
  heap w !! first = Some ta -> heap w !! second = Some tb ->
  timestamps ta = Some tas -> timestamps tb = Some tbs ->
  wf_traj ta -> wf_traj tb ->
  0 <= max_diff ->
  match associate_trajectories first second max_diff offset w with
  | (inr (la, lb), w') =>
      exists ta' tb',
        heap w' !! la = Some ta' /\ heap w' !! lb = Some tb' /\
        heap w !! la = None /\ heap w !! lb = None /\
        num_poses ta' = num_poses tb' /\
        (0 < num_poses ta')%nat /\
        (num_poses ta' <= num_poses ta `min` num_poses tb)%nat
  | (inl e, w') => e = AssociationError /\ heap w' = heap w
  end /\
  ((forall a b, a ∈ tas -> b ∈ tbs -> max_diff < Rabs (a - (b + offset))) ->
   fst (associate_trajectories first second max_diff offset w)
     = inl AssociationError) /\
  ((exists a b, a ∈ tas /\ b ∈ tbs /\ Rabs (a - (b + offset)) <= max_diff) ->
   exists la lb w',
     associate_trajectories first second max_diff offset w
       = (inr (la, lb), w')).
Proof.
  intros Hfirst Hsecond Htas Htbs Hwfa Hwfb _.
  pose proof (associate_trajectories_frame first second max_diff offset w)
    as [_ Hnew]. cbv zeta in Hnew.
  destruct (associate_trajectories_run first second max_diff offset w
              ta tb tas tbs Hfirst Hsecond Htas Htbs Hwfa Hwfb)
    as [[Hms Hrun] | (Hms & ta' & tb' & _ & _ & Hna & Hnb & Hrun)];
    cbv zeta in Hrun; rewrite Hrun in *; simpl.
  - split; [by split | split; [done |]].
    intros Hclose. exfalso. revert Hms. by apply matching_from_some.
  - split; [| split].
    + destruct (Hnew _ _ eq_refl) as (Hla & Hlb & Hne).
      exists ta', tb'. rewrite lookup_insert_ne, !lookup_insert_eq by done.
      repeat split; try done.
      * congruence.
      * rewrite Hna.
        destruct (matching_time_indices tas tbs max_diff offset);
          [done | simpl; lia].
      * rewrite Hna. unfold wf_traj in Hwfa, Hwfb.
        rewrite Htas in Hwfa. rewrite Htbs in Hwfb.
        unfold num_poses. rewrite <- Hwfa, <- Hwfb. apply matching_length.
    + intros Hfar. exfalso. apply Hms.
      by apply matching_from_none.
    + intros _. by eexists _, _, _.
Qed.

(** The number of poses of the reference and of the estimate are the
    same before and after a run of [ape]. *)
Lemma ape_keeps_shapes traj_ref traj_est align correct_scale n_to_align
    align_origin w tr te :
  heap w !! traj_ref = Some tr -> heap w !! traj_est = Some te ->
  let w1 := snd (ape_align traj_ref traj_est align correct_scale n_to_align
                   align_origin w) in
  exists tr' te',
    heap w1 !! traj_ref = Some tr' /\ heap w1 !! traj_est = Some te' /\
    num_poses tr' = num_poses tr /\ num_poses te' = num_poses te /\
    timestamps te' = timestamps te.
Proof.
  intros Hr He w1.
  destruct (ape_align_frame traj_ref traj_est align correct_scale n_to_align
              align_origin w) as [Hother Hest].
  fold w1 in Hother, Hest.
  destruct (Hest te He) as (te' & He' & Hts & Hn).
  destruct (decide (traj_ref = traj_est)) as [-> | Hne].
  - exists te', te'. rewrite Hr in He. by simplify_eq.
  - exists tr, te'. by rewrite (Hother _ Hne).
Qed.

(** Every per-pose array stored in the result of [ape] (the error
    array, which is always stored, and the four arrays of a timestamped
    estimate) has one entry per compared pose pair, the common length
    of the reference and the estimate. *)
Lemma ape_per_pose_array_lengths traj_ref traj_est rel align correct_scale
    n_to_align align_origin ref_name est_name w res w' tr te :
  ape traj_ref traj_est rel align correct_scale n_to_align align_origin
      ref_name est_name w = (inr res, w') ->
  heap w !! traj_ref = Some tr -> heap w !! traj_est = Some te ->
  wf_traj te ->
  is_Some (np_arrays res !! "error_array") /\
  forall k a, k ∈ per_pose_keys -> np_arrays res !! k = Some a ->
    arr_len a = num_poses tr /\ arr_len a = num_poses te.
Proof.
  intros H Hr He Hwf.
  apply ape_inv in H as (al & tr' & te' & Hal & Hr' & He' & Hn & ->).
  destruct (ape_keeps_shapes traj_ref traj_est align correct_scale n_to_align
              align_origin w tr te Hr He)
    as (tr2 & te2 & Hr2 & He2 & Hnr & Hne & Hts).
  rewrite Hal in Hr2, He2. simpl in Hr2, He2.
  rewrite Hr' in Hr2. rewrite He' in He2. simplify_eq.
  assert (Hsame : num_poses tr = num_poses te) by congruence.
  assert (Herr : length (zip_with (pose_error rel) (poses tr2) (poses te2))
                 = num_poses te).
  { rewrite length_zip_with. unfold num_poses in *. lia. }
  unfold wf_traj in Hwf. rewrite <- Hts in Hwf. cbv zeta. split.
  - destruct (timestamps te2), al; arrays_of_result; by simplify_map_eq.
  - intros k a Hk Hka.
    enough (arr_len a = num_poses te) by (split; congruence). revert Hka.
    unfold per_pose_keys in Hk. rewrite !elem_of_cons, elem_of_nil in Hk.
    destruct (timestamps te2) as [ts |] eqn:Hte, al; arrays_of_result;
      destruct Hk as [-> | [-> | [-> | [-> | [-> | []]]]]];
      intros Hka; simplify_map_eq; simpl;
      rewrite ?length_map, ?length_distances; unfold num_poses in *; congruence.
Qed.

(** The names under which a result of [ape] stores arrays: those of the
    per-pose arrays and that of the alignment matrix. *)
Lemma ape_array_keys traj_ref traj_est rel align correct_scale
    n_to_align align_origin ref_name est_name w res w' k a :
  ape traj_ref traj_est rel align correct_scale n_to_align align_origin
      ref_name est_name w = (inr res, w') ->
  np_arrays res !! k = Some a ->
  k ∈ per_pose_keys \/ k = "alignment_transformation_sim3".
Proof.
  intros H. apply ape_inv in H as (al & tr & te & _ & _ & _ & _ & ->).
  cbv zeta. unfold per_pose_keys.
  destruct (timestamps te) as [ts |], al as [m |]; arrays_of_result;
    intros Hk;
    repeat match type of Hk with
           | <[_ := _]> _ !! _ = Some _ =>
               apply lookup_insert_Some in Hk as [[<- _] | [_ Hk]];
               [rewrite !elem_of_cons; tauto |]
           end;
    by rewrite lookup_empty in Hk.
Qed.

(** C7, as amended. Every array stored in the result of [ape] is
    either one of the per-pose arrays (the error array, which is always
    stored, and the four arrays of a timestamped estimate), with one
    entry per compared pose pair, or the alignment matrix, which has
    four rows whatever the number of poses. *)
Theorem ape_array_lengths traj_ref traj_est rel align correct_scale
    n_to_align align_origin ref_name est_name w res w' tr te :
  ape traj_ref traj_est rel align correct_scale n_to_align align_origin
      ref_name est_name w = (inr res, w') ->
  heap w !! traj_ref = Some tr -> heap w !! traj_est = Some te ->
  wf_traj te ->
  is_Some (np_arrays res !! "error_array") /\
  forall k a, np_arrays res !! k = Some a ->
    (k ∈ per_pose_keys /\
     arr_len a = num_poses tr /\ arr_len a = num_poses te) \/
    (k = "alignment_transformation_sim3" /\ arr_len a = 4%nat).
Proof.
  intros H Hr He Hwf.
  destruct (ape_per_pose_array_lengths _ _ _ _ _ _ _ _ _ _ _ _ _ _
              H Hr He Hwf) as [Herr Hlen].
  split; [exact Herr |]. intros k a Hka.
  destruct (ape_array_keys _ _ _ _ _ _ _ _ _ _ _ _ _ _ H Hka) as [Hk | ->].
  - left. split; [exact Hk | by apply (Hlen k a)].
  - right. split; [done |].
    pose proof (ape_alignment_rows _ _ _ _ _ _ _ _ _ _ _ _ H) as Hrows.
    destruct (align || correct_scale || align_origin).
    + destruct Hrows as (rows & Hm & Hfour). rewrite Hm in Hka.
      injection Hka as <-. exact Hfour.
    + by rewrite Hrows in Hka.
Qed.

(** C3, as amended. The Synchronizer leaves every object of the store
    as it was and returns new objects.  [ape] changes no object other
    than the estimate it is given, keeps the timestamps and the number
    of poses of that estimate, and without an alignment mode changes
    nothing; the alignment itself is applied to the estimate in
    place. *)
Theorem pipeline_object_effects :
  (forall first second max_diff offset w,
     let out := associate_trajectories first second max_diff offset w in
     heap w ⊆ heap (snd out) /\
     forall la lb, fst out = inr (la, lb) ->
       heap w !! la = None /\ heap w !! lb = None /\ la <> lb) /\
  (forall traj_ref traj_est rel align correct_scale n_to_align align_origin
          ref_name est_name w,
     let w' := snd (ape traj_ref traj_est rel align correct_scale n_to_align
                      align_origin ref_name est_name w) in
     (forall l, l <> traj_est -> heap w' !! l = heap w !! l) /\
     (forall te, heap w !! traj_est = Some te ->
        exists te', heap w' !! traj_est = Some te' /\
          timestamps te' = timestamps te /\ num_poses te' = num_poses te) /\
     (align || correct_scale || align_origin = false -> w' = w)).
Proof.
  split.
  - apply associate_trajectories_frame.
  - intros. subst w'. rewrite ape_world.
    destruct (ape_align_frame traj_ref traj_est align correct_scale n_to_align
                align_origin w) as [Hother Hest].
    split; [done | split; [done |]].
    intros Hnone. apply orb_false_iff in Hnone as [Hnone ->].
    apply orb_false_iff in Hnone as [-> ->]. reflexivity.
Qed.

(** ** Scenario A *)

Lemma scenario_lookup_ref : heap scenario_world !! 0%nat = Some scenario_ref.
Proof. unfold scenario_world. simpl. by rewrite lookup_insert_ne. Qed.

Lemma scenario_lookup_est : heap scenario_world !! 1%nat = Some scenario_est.
Proof. unfold scenario_world. simpl. by rewrite lookup_insert_eq. Qed.

(** Between poses with identity rotation the [trans_part] error is the
    distance of the positions. *)
Lemma trans_part_identity x y z x' y' z' :
  pose_error trans_part (pose_at x y z) (pose_at x' y' z') =
  sqrt ((x' - x) * (x' - x) + (y' - y) * (y' - y) + (z' - z) * (z' - z)).
Proof.
  unfold pose_error, vnorm, vdot, pose_at. simpl. f_equal.
  unfold vdot. simpl. ring.
Qed.

Lemma sqrt_shift x x' : x' - x = 0.1 ->
  sqrt ((x' - x) * (x' - x) + (0 - 0) * (0 - 0) + (0 - 0) * (0 - 0)) = 0.1.
Proof.
  intros ->. replace (0.1 * 0.1 + _ + _) with (0.1 * 0.1) by lra.
  apply sqrt_square. lra.
Qed.

Lemma scenario_errors :
  zip_with (pose_error trans_part) (poses scenario_ref) (poses scenario_est)
  = [0.1; 0.1; 0.1].
Proof.
  unfold scenario_ref, scenario_est. cbn [poses zip_with].
  rewrite !trans_part_identity, !sqrt_shift by lra. reflexivity.
Qed.

Lemma scenario_rmse : rmse [0.1; 0.1; 0.1] = 0.1.
Proof.
  unfold rmse, mean, squares, rsum. simpl.
  replace (_ / _) with (0.1 * 0.1) by lra.
  apply sqrt_square. lra.
Qed.

Lemma stats_time_arrays tr te ts r :
  stats (ape_time_arrays tr te ts r) = stats r.
Proof. reflexivity. Qed.

Lemma stats_base traj_ref traj_est rel align correct_scale n_to_align
    align_origin ref_name est_name err :
  stats (ape_base_result traj_ref traj_est rel align correct_scale
           n_to_align align_origin ref_name est_name err) =
  all_statistics err.
Proof. reflexivity. Qed.

(** Scenario A in exact real arithmetic: [ape] with pose relation
    [trans_part] and no alignment returns a result whose error array is
    [0.1, 0.1, 0.1] and whose rmse is 0.1. *)
Lemma ape_scenario_A_reals :
  exists res,
    ape 0%nat 1%nat trans_part false false (-1) false "reference" "estimate"
        scenario_world = (inr res, scenario_world) /\
    np_arrays res !! "error_array" = Some (Arr1 [0.1; 0.1; 0.1]) /\
    stats res !! "rmse" = Some 0.1.
Proof.
  eexists. split; [| split].
  - apply (ape_unaligned_run _ _ _ _ _ _ _ _ _
             scenario_lookup_ref scenario_lookup_est eq_refl).
  - change (timestamps scenario_est) with (Some [0; 1; 2]). cbv beta iota zeta.
    arrays_of_result. rewrite scenario_errors. by simplify_map_eq.
  - change (timestamps scenario_est) with (Some [0; 1; 2]). cbv beta iota zeta.
    rewrite stats_time_arrays, stats_base, scenario_errors.
    unfold all_statistics. by rewrite lookup_insert_eq, scenario_rmse.
Qed.

(** ** The time filter of [run] *)

Lemma rlt_true a b : a < b -> rlt a b = true.
Proof. unfold rlt. intros H. by destruct (Rlt_dec a b). Qed.

Lemma rlt_false a b : b <= a -> rlt a b = false.
Proof. unfold rlt. intros H. destruct (Rlt_dec a b); [lra | done]. Qed.

Lemma rle_true a b : a <= b -> rle a b = true.
Proof. unfold rle. intros H. by destruct (Rle_dec a b). Qed.

Lemma rle_false a b : b < a -> rle a b = false.
Proof. unfold rle. intros H. destruct (Rle_dec a b); [lra | done]. Qed.

Lemma req_refl a : req a a = true.
Proof. unfold req. by destruct (Req_dec_T a a). Qed.

(** Linear arithmetic with absolute values of concrete numbers. *)
Ltac abs_lra :=
  unfold Rabs;
  repeat match goal with
         | |- context [Rcase_abs ?x] => destruct (Rcase_abs x)
         end;
  lra.

(** Decides the comparisons of concrete reals in the goal, one by one. *)
Ltac decide_reals :=
  repeat first
    [ rewrite rlt_true by abs_lra
    | rewrite rlt_false by abs_lra
    | rewrite rle_true by abs_lra
    | rewrite rle_false by abs_lra ].

(** The timestamps 0, 1, 2 are matched index by index. *)
Lemma scenario_matching :
  matching_time_indices [0; 1; 2] [0; 1; 2] (1 / 100) 0 =
  [(0, 0); (1, 1); (2, 2)]%nat.
Proof.
  unfold matching_time_indices.
  cbn [matching_from closest closest_from]. decide_reals.
  rewrite bool_decide_eq_true_2 by apply not_elem_of_empty.
  cbn [andb matching_from closest closest_from]. decide_reals.
  rewrite bool_decide_eq_true_2
    by (rewrite elem_of_union, elem_of_singleton, elem_of_empty; lia).
  cbn [andb matching_from closest closest_from]. decide_reals.
  rewrite bool_decide_eq_true_2
    by (rewrite !elem_of_union, !elem_of_singleton, elem_of_empty; lia).
  reflexivity.
Qed.

(** The closed interval up to 0 holds the first timestamp only. *)
Lemma scenario_until_zero :
  indices_where (in_time_range None (Some 0)) 0 [0; 1; 2] = [0%nat].
Proof.
  unfold in_time_range. cbn [indices_where andb]. by decide_reals.
Qed.

(** Selecting the indices of the kept timestamps keeps the parallel
    entries. *)
Lemma select_indices_where {A} (keep : R -> bool) (ts : list R) :
  forall (xs pre : list A), length xs = length ts ->
    select (indices_where keep (length pre) ts) (pre ++ xs)
    = Some (keep_where keep ts xs).
Proof.
  induction ts as [| t ts IH]; intros xs pre Hlen; simpl.
  - reflexivity.
  - destruct xs as [| x xs]; [discriminate |]. injection Hlen as Hlen.
    specialize (IH xs (pre ++ [x]) Hlen). rewrite length_app in IH.
    simpl in IH. rewrite Nat.add_1_r, <- app_assoc in IH. simpl in IH.
    unfold select in *. destruct (keep t); [| exact IH].
    simpl. rewrite lookup_app_r by lia. rewrite Nat.sub_diag. simpl.
    by rewrite IH.
Qed.

(** [reduce_to_time_range] replaces the object by its restriction to
    the closed interval. *)
Lemma reduce_to_time_range_run traj t_start t_end w t ts :
  heap w !! traj = Some t -> timestamps t = Some ts -> wf_traj t ->
  reduce_to_time_range traj t_start t_end w =
  (inr tt,
   mkWorld (<[traj := mkTraj
                        (keep_where (in_time_range t_start t_end) ts (poses t))
                        (Some (keep_where (in_time_range t_start t_end) ts ts))]>
              (heap w))
           (calls w ++ [CallReduceToTimeRange traj t_start t_end])).
Proof.
  intros Ht Hts Hwf. unfold wf_traj in Hwf. rewrite Hts in Hwf.
  unfold reduce_to_time_range, bind, log_call, get_obj, lift_exc, set_obj.
  simpl. rewrite Ht. simpl. rewrite Hts. unfold reduce_to_ids.
  rewrite (select_indices_where _ ts (poses t) []) by done.
  rewrite Hts. rewrite (select_indices_where _ ts ts []) by done.
  reflexivity.
Qed.

(** With a bound that Python takes as true, [run] associates the
    reference restricted to the closed interval. *)
Lemma run_sync_restricts args traj_ref traj_est w tr te ts :
  heap w !! traj_ref = Some tr -> heap w !! traj_est = Some te ->
  timestamps tr = Some ts -> is_trajectory te = true -> wf_traj tr ->
  truthy (args_t_start args) || truthy (args_t_end args) = true ->
  let keep := in_time_range (args_t_start args) (args_t_end args) in
  run_sync args traj_ref traj_est w =
  associate_trajectories traj_ref traj_est
    (args_t_max_diff args) (args_t_offset args)
    (mkWorld (<[traj_ref := mkTraj (keep_where keep ts (poses tr))
                              (Some (keep_where keep ts ts))]> (heap w))
             (calls w ++ [CallReduceToTimeRange traj_ref (args_t_start args)
                            (args_t_end args)])).
Proof.
  intros Hr He Hts Hte Hwf Htrue keep. unfold run_sync, bind at 1.
  rewrite (get_obj_run _ _ _ Hr). unfold bind at 1.
  rewrite (get_obj_run _ _ _ He).
  unfold is_trajectory at 1. rewrite Hts, Hte, Htrue. cbn [andb].
  unfold bind at 1.
  by rewrite (reduce_to_time_range_run _ _ _ _ _ _ Hr Hts Hwf).
Qed.

(** With bounds that are absent or 0.0, [run] associates the reference
    as it is. *)
Lemma run_sync_unrestricted args traj_ref traj_est w tr te :
  heap w !! traj_ref = Some tr -> heap w !! traj_est = Some te ->
  is_trajectory tr = true -> is_trajectory te = true ->
  truthy (args_t_start args) || truthy (args_t_end args) = false ->
  run_sync args traj_ref traj_est w =
  associate_trajectories traj_ref traj_est
    (args_t_max_diff args) (args_t_offset args) w.
Proof.
  intros Hr He Htr Hte Hfalse. unfold run_sync, bind at 1.
  rewrite (get_obj_run _ _ _ Hr). unfold bind at 1.
  rewrite (get_obj_run _ _ _ He). by rewrite Htr, Hte, Hfalse.
Qed.

(** With an end time of 0.0 and no start time, on the trajectories of
    scenario A, the time filter is skipped and the association returns
    copies of the whole reference and the whole estimate. *)
Lemma scenario_run_sync_end_zero :
  exists la lb w',
    run_sync args_end_zero 0%nat 1%nat scenario_world = (inr (la, lb), w') /\
    calls w' = [CallAssociate 0%nat 1%nat (1 / 100) 0] /\
    heap w' !! la = Some scenario_ref /\
    heap w' !! lb = Some scenario_est.
Proof.
  destruct (associate_trajectories_run 0%nat 1%nat (1 / 100) 0 scenario_world
              scenario_ref scenario_est [0; 1; 2] [0; 1; 2]
              scenario_lookup_ref scenario_lookup_est eq_refl eq_refl
              eq_refl eq_refl)
    as [[Hms _] | (_ & ta' & tb' & Ha & Hb & _ & _ & Hrun)].
  { by rewrite scenario_matching in Hms. }
  rewrite scenario_matching in Ha, Hb. injection Ha as <-. injection Hb as <-.
  cbv zeta in Hrun.
  pose proof (associate_trajectories_frame 0%nat 1%nat (1 / 100) 0
                scenario_world) as [_ Hnew].
  cbv zeta in Hnew. rewrite Hrun in Hnew.
  destruct (Hnew _ _ eq_refl) as (_ & _ & Hne).
  do 3 eexists. split; [| split; [| split]].
  - rewrite (run_sync_unrestricted args_end_zero 0%nat 1%nat scenario_world
               scenario_ref scenario_est scenario_lookup_ref
               scenario_lookup_est eq_refl eq_refl); [exact Hrun |].
    unfold args_end_zero, truthy. cbn [args_t_start args_t_end orb].
    by rewrite req_refl.
  - reflexivity.
  - simpl. rewrite lookup_insert_ne by auto. apply lookup_insert_eq.
  - simpl. apply lookup_insert_eq.
Qed.

(** C4, at the failing input. With an end time of 0.0 and no start
    time, on the trajectories of scenario A: [run] never calls
    [reduce_to_time_range], and its result compares the poses at the
    timestamps 0, 1 and 2, although only the first timestamp lies in
    the closed interval up to 0. *)
Theorem run_end_time_zero :
  exists res w',
    run args_end_zero 0%nat 1%nat "reference" "estimate" scenario_world
      = (inr res, w') /\
    calls w' = [CallAssociate 0%nat 1%nat (1 / 100) 0] /\
    np_arrays res !! "timestamps" = Some (Arr1 [0; 1; 2]) /\
    indices_where
      (in_time_range (args_t_start args_end_zero) (args_t_end args_end_zero))
      0 [0; 1; 2] = [0%nat].
Proof.
  destruct scenario_run_sync_end_zero as (la & lb & w' & Hsync & Hcalls & Hla & Hlb).
  eexists _, w'. split; [| split; [| split]].
  - unfold run. rewrite (bind_run _ _ _ _ _ Hsync).
    apply (ape_unaligned_run _ _ _ _ _ _ _ _ _ Hla Hlb eq_refl).
  - exact Hcalls.
  - change (timestamps scenario_est) with (Some [0; 1; 2]).
    cbv beta iota zeta. arrays_of_result. by simplify_map_eq.
  - apply scenario_until_zero.
Qed.

(** ** Origin alignment in place *)

(** A successful alignment step followed by the metric on
    trajectories of equal length: the run of [ape]. *)
Lemma ape_run traj_ref traj_est rel align correct_scale n_to_align
    align_origin ref_name est_name w a w1 tr te :
  ape_align traj_ref traj_est align correct_scale n_to_align align_origin w
    = (inr a, w1) ->
  heap w1 !! traj_ref = Some tr -> heap w1 !! traj_est = Some te ->
  num_poses tr = num_poses te ->
  ape traj_ref traj_est rel align correct_scale n_to_align align_origin
      ref_name est_name w =
  (inr (ape_add_alignment a
          (let base :=
             ape_base_result traj_ref traj_est rel align correct_scale
               n_to_align align_origin ref_name est_name
               (zip_with (pose_error rel) (poses tr) (poses te)) in
           match timestamps te with
           | Some ts => ape_time_arrays tr te ts base
           | None => base
           end)), w1).
Proof.
  intros Ha Hr He Hn. unfold ape. rewrite (bind_run _ _ _ _ _ Ha).
  assert (Hp : process_data rel traj_ref traj_est w1 =
               (inr (zip_with (pose_error rel) (poses tr) (poses te)), w1)).
  { unfold process_data, bind, get_obj, ret.
    by rewrite Hr, He, Hn, Nat.eqb_refl. }
  rewrite (bind_run _ _ _ _ _ Hp).
  rewrite (bind_run _ _ _ _ _ (get_obj_run _ _ _ He)).
  unfold ape_base_result, bind, get_obj, ret.
  destruct (timestamps te) as [ts |]; [rewrite Hr |]; reflexivity.
Qed.

(** The alignment step with origin alignment on non-empty
    trajectories. *)
Lemma ape_align_origin_run traj_ref traj_est n_to_align w tr te pe pes pr prs :
  heap w !! traj_ref = Some tr -> heap w !! traj_est = Some te ->
  poses te = pe :: pes -> poses tr = pr :: prs ->
  let T := se3_compose pr (se3_inverse pe) in
  ape_align traj_ref traj_est false false n_to_align true w =
  (inr (Some (se3 T)),
   mkWorld (<[traj_est := traj_transform (mkSim3 (rot T) (trans T) 1) te]>
              (heap w))
           (calls w ++ [CallAlignOrigin traj_est traj_ref])).
Proof.
  intros Hr He Hpe Hpr T.
  unfold ape_align, align_origin_method, bind, log_call, get_obj, set_obj, ret.
  simpl. rewrite He. simpl. rewrite Hr. simpl. by rewrite Hpe, Hpr.
Qed.

(** A run of [ape] with origin alignment on two distinct, non-empty
    trajectories of equal length: the estimate object is replaced by
    its transformed version. *)
Lemma ape_origin_run traj_ref traj_est rel n_to_align ref_name est_name
    w tr te pe pes pr prs :
  traj_ref <> traj_est ->
  heap w !! traj_ref = Some tr -> heap w !! traj_est = Some te ->
  poses te = pe :: pes -> poses tr = pr :: prs ->
  num_poses tr = num_poses te ->
  let T := se3_compose pr (se3_inverse pe) in
  exists res,
    ape traj_ref traj_est rel false false n_to_align true ref_name est_name w
    = (inr res,
       mkWorld (<[traj_est := traj_transform (mkSim3 (rot T) (trans T) 1) te]>
                  (heap w))
               (calls w ++ [CallAlignOrigin traj_est traj_ref])).
Proof.
  intros Hne Hr He Hpe Hpr Hn T. eexists.
  eapply ape_run.
  - by eapply ape_align_origin_run.
  - simpl. rewrite lookup_insert_ne by auto. exact Hr.
  - simpl. apply lookup_insert_eq.
  - rewrite Hn. symmetry. apply traj_transform_shape.
Qed.

(** ** The whole of [run] *)

Lemma truthy_true o : truthy o = true <-> exists t, o = Some t /\ t <> 0.
Proof.
  unfold truthy, req. destruct o as [t |]; [| split; [done | by intros (? & ? & ?)]].
  destruct (Req_dec_T t 0) as [-> | Hne]; simpl.
  - split; [done |]. intros (t & [= <-] & Hne). done.
  - split; [| done]. intros _. by exists t.
Qed.

(** The Synchronizer logs its call first, whatever its outcome. *)
Lemma associate_trajectories_calls first second max_diff offset w :
  calls (snd (associate_trajectories first second max_diff offset w)) =
  calls w ++ [CallAssociate first second max_diff offset].
Proof.
  unfold associate_trajectories, bind, log_call, get_obj, lift_exc, new_obj,
    raise, ret. simpl.
  destruct (heap w !! first) as [ta |]; simpl; [| done].
  destruct (heap w !! second) as [tb |]; simpl; [| done].
  destruct (timestamps ta) as [tas |]; simpl; [| done].
  destruct (timestamps tb) as [tbs |]; simpl; [| done].
  destruct (matching_time_indices tas tbs max_diff offset) as [| m ms];
    simpl; [done |].
  destruct (reduce_to_ids _ ta) as [e | ta']; simpl; [done |].
  by destruct (reduce_to_ids _ tb) as [e | tb'].
Qed.

(** On two timestamped trajectories [run] associates them in the
    time-filtered world. *)
Lemma run_sync_timestamped args traj_ref traj_est w tr te ts :
  heap w !! traj_ref = Some tr -> heap w !! traj_est = Some te ->
  timestamps tr = Some ts -> is_trajectory te = true -> wf_traj tr ->
  run_sync args traj_ref traj_est w =
  associate_trajectories traj_ref traj_est
    (args_t_max_diff args) (args_t_offset args)
    (time_filtered args traj_ref tr w).
Proof.
  intros Hr He Hts Hte Hwf. unfold time_filtered.
  destruct (truthy (args_t_start args) || truthy (args_t_end args)) eqn:Ht.
  - rewrite (run_sync_restricts args _ _ _ _ _ _ Hr He Hts Hte Hwf Ht).
    unfold restrict_to_time_range. by rewrite Hts.
  - apply (run_sync_unrestricted args _ _ _ _ _ Hr He); [| done | done].
    unfold is_trajectory. by rewrite Hts.
Qed.

Lemma time_filtered_calls args traj_ref tr w :
  calls (time_filtered args traj_ref tr w) =
  calls w ++
    (if truthy (args_t_start args) || truthy (args_t_end args)
     then [CallReduceToTimeRange traj_ref (args_t_start args)
             (args_t_end args)]
     else []).
Proof.
  unfold time_filtered. destruct (truthy _ || truthy _); simpl; [done |].
  by rewrite app_nil_r.
Qed.

Lemma time_filtered_heap args traj_ref tr w :
  heap w !! traj_ref = Some tr ->
  heap (time_filtered args traj_ref tr w) =
  <[traj_ref := if truthy (args_t_start args) || truthy (args_t_end args)
                then restrict_to_time_range (args_t_start args)
                       (args_t_end args) tr
                else tr]> (heap w).
Proof.
  intros Hr. unfold time_filtered.
  destruct (truthy _ || truthy _); simpl; [done |]. by rewrite insert_id.
Qed.

Lemma run_unfold args traj_ref traj_est ref_name est_name w :
  run args traj_ref traj_est ref_name est_name w =
  match run_sync args traj_ref traj_est w with
  | (inr (la, lb), w1) =>
      ape la lb (args_pose_relation args) (args_align args)
        (args_correct_scale args) (args_n_to_align args)
        (args_align_origin args) ref_name est_name w1
  | (inl e, w1) => (inl e, w1)
  end.
Proof.
  unfold run, bind. by destruct (run_sync _ _ _ _) as [[e | [la lb]] w1].
Qed.

(** X1. On two timestamped trajectories [run] calls
    [reduce_to_time_range] exactly when a bound is neither absent nor
    0.0, then the Synchronizer once, and then, if the association
    succeeded, the alignment that [ape] selects, on the associated
    copies and never on the trajectories it was given: the two copies
    are objects that did not exist before the run, different from each
    other, from the reference and from the estimate. *)
Theorem run_call_order args traj_ref traj_est ref_name est_name w tr te ts :
  heap w !! traj_ref = Some tr -> heap w !! traj_est = Some te ->
  timestamps tr = Some ts -> is_trajectory te = true -> wf_traj tr ->
  calls (snd (run args traj_ref traj_est ref_name est_name w)) =
    calls w ++
    (if truthy (args_t_start args) || truthy (args_t_end args)
     then [CallReduceToTimeRange traj_ref (args_t_start args)
             (args_t_end args)]
     else []) ++
    [CallAssociate traj_ref traj_est (args_t_max_diff args)
       (args_t_offset args)] ++
    match fst (run_sync args traj_ref traj_est w) with
    | inr (la, lb) =>
        if args_align args || args_correct_scale args then
          [CallAlign lb la (args_correct_scale args)
             (args_correct_scale args && negb (args_align args))
             (args_n_to_align args)]
        else if args_align_origin args then [CallAlignOrigin lb la]
        else []
    | inl _ => []
    end /\
  forall la lb, fst (run_sync args traj_ref traj_est w) = inr (la, lb) ->
    la <> lb /\
    la <> traj_ref /\ la <> traj_est /\ lb <> traj_ref /\ lb <> traj_est /\
    heap w !! la = None /\ heap w !! lb = None.
Proof.
  intros Hr He Hts Hte Hwf.
  rewrite run_unfold, (run_sync_timestamped args _ _ _ _ _ _ Hr He Hts Hte Hwf).
  set (w1 := time_filtered args traj_ref tr w).
  pose proof (time_filtered_calls args traj_ref tr w) as Hw1. fold w1 in Hw1.
  pose proof (time_filtered_heap args traj_ref tr w Hr) as Hh1. fold w1 in Hh1.
  pose proof (associate_trajectories_calls traj_ref traj_est
                (args_t_max_diff args) (args_t_offset args) w1) as Hc.
  pose proof (associate_trajectories_frame traj_ref traj_est
                (args_t_max_diff args) (args_t_offset args) w1) as [_ Hnew].
  cbv zeta in Hnew. split.
  - destruct (associate_trajectories _ _ _ _ w1) as [[e | [la lb]] w2];
      simpl in Hc; simpl fst; cbv iota beta.
    + simpl. rewrite Hc, Hw1. by rewrite <- !app_assoc.
    + rewrite ape_world, ape_align_calls, Hc, Hw1. by rewrite <- !app_assoc.
  - intros la lb Hout. destruct (Hnew la lb Hout) as (Hla & Hlb & Hne).
    rewrite Hh1 in Hla, Hlb.
    assert (Hfresh : forall l,
      <[traj_ref := if truthy (args_t_start args) || truthy (args_t_end args)
                    then restrict_to_time_range (args_t_start args)
                           (args_t_end args) tr
                    else tr]> (heap w) !! l = None ->
      l <> traj_ref /\ l <> traj_est /\ heap w !! l = None).
    { intros l Hl. apply lookup_insert_None in Hl as [Hl Hlr].
      repeat split; [congruence | | done]. intros ->. congruence. }
    destruct (Hfresh la Hla) as (? & ? & ?).
    destruct (Hfresh lb Hlb) as (? & ? & ?). by repeat split.
Qed.

(** X2. When the reference or the estimate is an untimestamped path,
    [run] is [ape] on the very objects it was given: the time options
    [t_start], [t_end], [t_max_diff] and [t_offset] have no effect. *)
Theorem run_untimestamped args1 args2 traj_ref traj_est ref_name est_name
    w tr te :
  heap w !! traj_ref = Some tr -> heap w !! traj_est = Some te ->
  is_trajectory tr && is_trajectory te = false ->
  args_pose_relation args1 = args_pose_relation args2 ->
  args_align args1 = args_align args2 ->
  args_correct_scale args1 = args_correct_scale args2 ->
  args_n_to_align args1 = args_n_to_align args2 ->
  args_align_origin args1 = args_align_origin args2 ->
  run args1 traj_ref traj_est ref_name est_name w =
    run args2 traj_ref traj_est ref_name est_name w /\
  run args1 traj_ref traj_est ref_name est_name w =
    ape traj_ref traj_est (args_pose_relation args1) (args_align args1)
      (args_correct_scale args1) (args_n_to_align args1)
      (args_align_origin args1) ref_name est_name w.
Proof.
  intros Hr He Hpath Hrel Hal Hcs Hn Hao.
  assert (Hsync : forall args,
    run_sync args traj_ref traj_est w = (inr (traj_ref, traj_est), w)).
  { intros args. unfold run_sync, bind.
    rewrite (get_obj_run _ _ _ Hr), (get_obj_run _ _ _ He). by rewrite Hpath. }
  rewrite !run_unfold, !Hsync. by rewrite Hrel, Hal, Hcs, Hn, Hao.
Qed.

(** Every object of the world in which [run] starts the association is
    still there, unchanged, when [run] ends, whatever its outcome. *)
Lemma run_store args traj_ref traj_est ref_name est_name w tr te ts :
  heap w !! traj_ref = Some tr -> heap w !! traj_est = Some te ->
  timestamps tr = Some ts -> is_trajectory te = true -> wf_traj tr ->
  forall l x,
    heap (time_filtered args traj_ref tr w) !! l = Some x ->
    heap (snd (run args traj_ref traj_est ref_name est_name w)) !! l = Some x.
Proof.
  intros Hr He Hts Hte Hwf l x.
  rewrite run_unfold, (run_sync_timestamped args _ _ _ _ _ _ Hr He Hts Hte Hwf).
  set (w1 := time_filtered args traj_ref tr w). intros Hl.
  destruct (associate_trajectories_frame traj_ref traj_est
              (args_t_max_diff args) (args_t_offset args) w1) as [Hsub Hnew].
  destruct (associate_trajectories _ _ _ _ w1) as [[e | [la lb]] w2];
    simpl in Hsub, Hnew.
  - simpl. by eapply lookup_weaken.
  - destruct (Hnew _ _ eq_refl) as (_ & Hlb & _).
    rewrite ape_world.
    destruct (ape_align_frame la lb (args_align args)
                (args_correct_scale args) (args_n_to_align args)
                (args_align_origin args) w2) as [Hother _].
    rewrite Hother; [by eapply lookup_weaken |].
    intros ->. by rewrite Hlb in Hl.
Qed.

(** X3. Whatever the outcome of [run] on two timestamped trajectories,
    every object other than the reference is as it was, the estimate
    included; the reference is as it was when no bound is given (or
    only 0.0), and otherwise holds exactly its poses with a timestamp
    in the closed interval, in their order. *)
Theorem run_changes_reference_only args traj_ref traj_est ref_name est_name
    w tr te ts :
  heap w !! traj_ref = Some tr -> heap w !! traj_est = Some te ->
  timestamps tr = Some ts -> is_trajectory te = true -> wf_traj tr ->
  let w' := snd (run args traj_ref traj_est ref_name est_name w) in
  (forall l x, l <> traj_ref -> heap w !! l = Some x ->
     heap w' !! l = Some x) /\
  heap w' !! traj_ref =
    Some (if truthy (args_t_start args) || truthy (args_t_end args)
          then restrict_to_time_range (args_t_start args) (args_t_end args) tr
          else tr) /\
  timestamps (restrict_to_time_range (args_t_start args) (args_t_end args) tr)
    = Some (filter (fun t => in_time_range (args_t_start args)
                               (args_t_end args) t = true) ts).
Proof.
  intros Hr He Hts Hte Hwf w'.
  pose proof (run_store args traj_ref traj_est ref_name est_name w tr te ts
                Hr He Hts Hte Hwf) as Hkeep.
  fold w' in Hkeep. rewrite (time_filtered_heap _ _ _ _ Hr) in Hkeep.
  split; [| split].
  - intros l x Hne Hl. apply Hkeep. by rewrite lookup_insert_ne.
  - apply Hkeep, lookup_insert_eq.
  - unfold restrict_to_time_range. rewrite Hts. simpl. f_equal.
    clear. induction ts as [| t ts IH]; simpl; [done |].
    rewrite filter_cons. destruct (in_time_range _ _ t); simpl.
    + by rewrite IH.
    + done.
Qed.

(** *** Restriction to a time range *)

Lemma keep_where_filter keep ts :
  keep_where keep ts ts = filter (fun t => keep t = true) ts.
Proof.
  induction ts as [| t ts IH]; simpl; [done |].
  rewrite filter_cons. destruct (keep t); simpl; [by rewrite IH | done].
Qed.

Lemma length_keep_where {A} keep ts (xs : list A) :
  length xs = length ts ->
  length (keep_where keep ts xs) = length (keep_where keep ts ts) /\
  (length (keep_where keep ts xs) <= length xs)%nat.
Proof.
  revert xs. induction ts as [| t ts IH]; intros [| x xs] Hlen; simpl in *;
    try done.
  injection Hlen as Hlen. destruct (IH xs Hlen) as [Heq Hle].
  destruct (keep t); simpl; split; lia.
Qed.

(** The restriction of a trajectory with one timestamp per pose has
    one timestamp per pose, no more poses, and timestamps taken from
    the original ones. *)
Lemma restrict_to_time_range_spec t_start t_end t ts :
  timestamps t = Some ts -> wf_traj t ->
  let t1 := restrict_to_time_range t_start t_end t in
  wf_traj t1 /\ (num_poses t1 <= num_poses t)%nat /\
  exists ts1, timestamps t1 = Some ts1 /\ forall a, a ∈ ts1 -> a ∈ ts.
Proof.
  intros Hts Hwf. unfold wf_traj in Hwf. rewrite Hts in Hwf.
  unfold restrict_to_time_range, wf_traj, num_poses. rewrite Hts. simpl.
  destruct (length_keep_where (in_time_range t_start t_end) ts (poses t))
    as [Heq Hle]; [done |].
  split; [done | split; [done |]]. eexists. split; [done |].
  intros a. rewrite keep_where_filter, list_elem_of_filter. by intros [_ ?].
Qed.

(** The two trajectories as [run] associates them. *)
Lemma time_filtered_objects args traj_ref traj_est w tr te ts tes :
  heap w !! traj_ref = Some tr -> heap w !! traj_est = Some te ->
  timestamps tr = Some ts -> timestamps te = Some tes ->
  wf_traj tr -> wf_traj te ->
  exists tr1 te1 ts1 tes1,
    heap (time_filtered args traj_ref tr w) !! traj_ref = Some tr1 /\
    heap (time_filtered args traj_ref tr w) !! traj_est = Some te1 /\
    timestamps tr1 = Some ts1 /\ timestamps te1 = Some tes1 /\
    wf_traj tr1 /\ wf_traj te1 /\
    (forall a, a ∈ ts1 -> a ∈ ts) /\ (forall b, b ∈ tes1 -> b ∈ tes) /\
    (num_poses tr1 <= num_poses tr)%nat /\ (num_poses te1 <= num_poses te)%nat.
Proof.
  intros Hr He Hts Htes Hwfr Hwfe. rewrite (time_filtered_heap _ _ _ _ Hr).
  set (trx := if truthy (args_t_start args) || truthy (args_t_end args)
              then restrict_to_time_range (args_t_start args)
                     (args_t_end args) tr
              else tr).
  assert (Hx : wf_traj trx /\ (num_poses trx <= num_poses tr)%nat /\
               exists ts1, timestamps trx = Some ts1 /\
                 forall a, a ∈ ts1 -> a ∈ ts).
  { subst trx. destruct (truthy _ || truthy _).
    - by apply restrict_to_time_range_spec.
    - split; [done | split; [done |]]. by exists ts. }
  destruct Hx as (Hwfx & Hnx & ts1 & Hts1 & Hin).
  destruct (decide (traj_est = traj_ref)) as [-> | Hne].
  - rewrite Hr in He. simplify_eq.
    exists trx, trx, ts1, ts1. rewrite lookup_insert_eq. by repeat split.
  - exists trx, te, ts1, tes. rewrite lookup_insert_eq.
    rewrite lookup_insert_ne by done. by repeat split.
Qed.

(** A successful association: two new objects of equal, positive
    length, at most the length of either input. *)
Lemma associate_trajectories_inr first second max_diff offset w
    ta tb tas tbs la lb w' :
  heap w !! first = Some ta -> heap w !! second = Some tb ->
  timestamps ta = Some tas -> timestamps tb = Some tbs ->
  wf_traj ta -> wf_traj tb ->
  associate_trajectories first second max_diff offset w = (inr (la, lb), w') ->
  exists ta' tb',
    heap w' !! la = Some ta' /\ heap w' !! lb = Some tb' /\
    heap w !! la = None /\ heap w !! lb = None /\ la <> lb /\
    num_poses ta' = num_poses tb' /\ (1 <= num_poses ta')%nat /\
    (num_poses ta' <= num_poses ta `min` num_poses tb)%nat.
Proof.
  intros Hfirst Hsecond Htas Htbs Hwfa Hwfb Hrun.
  pose proof (associate_trajectories_frame first second max_diff offset w)
    as [_ Hnew]. cbv zeta in Hnew. rewrite Hrun in Hnew.
  destruct (Hnew _ _ eq_refl) as (Hla & Hlb & Hne).
  destruct (associate_trajectories_run first second max_diff offset w
              ta tb tas tbs Hfirst Hsecond Htas Htbs Hwfa Hwfb)
    as [[_ Hrun'] | (Hms & ta' & tb' & _ & _ & Hna & Hnb & Hrun')];
    cbv zeta in Hrun'; rewrite Hrun in Hrun'; [done |].
  injection Hrun' as -> -> ->. simpl.
  exists ta', tb'. rewrite lookup_insert_ne by done.
  rewrite !lookup_insert_eq. repeat split; try done.
  - congruence.
  - rewrite Hna.
    destruct (matching_time_indices tas tbs max_diff offset); [done | simpl; lia].
  - rewrite Hna. unfold wf_traj in Hwfa, Hwfb.
    rewrite Htas in Hwfa. rewrite Htbs in Hwfb.
    unfold num_poses. rewrite <- Hwfa, <- Hwfb. apply matching_length.
Qed.

Lemma run_inr args traj_ref traj_est ref_name est_name w res w' :
  run args traj_ref traj_est ref_name est_name w = (inr res, w') ->
  exists la lb w1,
    run_sync args traj_ref traj_est w = (inr (la, lb), w1) /\
    ape la lb (args_pose_relation args) (args_align args)
      (args_correct_scale args) (args_n_to_align args)
      (args_align_origin args) ref_name est_name w1 = (inr res, w').
Proof.
  rewrite run_unfold.
  destruct (run_sync _ _ _ _) as [[e | [la lb]] w1]; [done |]. eauto.
Qed.

(** The trajectories attached to a result of [ape]. *)
Lemma ape_result_trajectories traj_ref traj_est rel align correct_scale
    n_to_align align_origin ref_name est_name w res w' :
  ape traj_ref traj_est rel align correct_scale n_to_align align_origin
      ref_name est_name w = (inr res, w') ->
  trajectories res = <[est_name := traj_est]> (<[ref_name := traj_ref]> ∅).
Proof.
  intros H. apply ape_inv in H as (a & tr & te & _ & _ & _ & _ & ->).
  rewrite trajectories_add_alignment. cbv zeta.
  by destruct (timestamps te).
Qed.

(** The error array of a result of [ape], from the objects as [ape]
    leaves them. *)
Lemma ape_result_error_array traj_ref traj_est rel align correct_scale
    n_to_align align_origin ref_name est_name w res w' :
  ape traj_ref traj_est rel align correct_scale n_to_align align_origin
      ref_name est_name w = (inr res, w') ->
  exists tr te,
    heap w' !! traj_ref = Some tr /\ heap w' !! traj_est = Some te /\
    num_poses tr = num_poses te /\
    np_arrays res !! "error_array" =
      Some (Arr1 (zip_with (pose_error rel) (poses tr) (poses te))).
Proof.
  intros H. apply ape_inv in H as (a & tr & te & _ & Hr & He & Hn & ->).
  exists tr, te. repeat split; try done. cbv zeta.
  destruct (timestamps te), a; arrays_of_result; by simplify_map_eq.
Qed.


(** X5. When [run] returns on two timestamped trajectories, the error
    array of its result has at least one entry and at most as many as
    the shorter of the two trajectories has poses. *)
Theorem run_compared_pairs args traj_ref traj_est ref_name est_name
    w tr te ts tes res w' :
  heap w !! traj_ref = Some tr -> heap w !! traj_est = Some te ->
  timestamps tr = Some ts -> timestamps te = Some tes ->
  wf_traj tr -> wf_traj te ->
  run args traj_ref traj_est ref_name est_name w = (inr res, w') ->
  exists err,
    np_arrays res !! "error_array" = Some (Arr1 err) /\
    (1 <= length err <= num_poses tr `min` num_poses te)%nat.
Proof.
  intros Hr He Hts Htes Hwfr Hwfe Hrun.
  assert (Hte : is_trajectory te = true)
    by (unfold is_trajectory; by rewrite Htes).
  apply run_inr in Hrun as (la & lb & w1 & Hsync & Hape).
  rewrite (run_sync_timestamped args _ _ _ _ _ _ Hr He Hts Hte Hwfr) in Hsync.
  destruct (time_filtered_objects args traj_ref traj_est w tr te ts tes
              Hr He Hts Htes Hwfr Hwfe)
    as (tr1 & te1 & ts1 & tes1 & Hr1 & He1 & Hts1 & Htes1 & Hwf1 & Hwf2
        & _ & _ & Hn1 & Hn2).
  destruct (associate_trajectories_inr _ _ _ _ _ _ _ _ _ _ _ _
              Hr1 He1 Hts1 Htes1 Hwf1 Hwf2 Hsync)
    as (ta' & tb' & Hla & Hlb & _ & _ & Hne & Hsame & Hpos & Hmin).
  destruct (ape_keeps_shapes la lb (args_align args) (args_correct_scale args)
              (args_n_to_align args) (args_align_origin args) w1 ta' tb'
              Hla Hlb) as (tr2 & te2 & Hr2 & He2 & Hnr & Hne2 & _).
  rewrite <- ape_world
    with (rel := args_pose_relation args) (ref_name := ref_name)
         (est_name := est_name) in Hr2, He2.
  rewrite Hape in Hr2, He2. simpl in Hr2, He2.
  apply ape_result_error_array in Hape as (tr' & te' & Hr' & He' & _ & Harr).
  rewrite Hr2 in Hr'. rewrite He2 in He'. simplify_eq.
  eexists. split; [exact Harr |].
  rewrite length_zip_with. unfold num_poses in *. lia.
Qed.

(** X6. On two timestamped trajectories of which no two timestamps
    are within the tolerance, [run] fails with [AssociationError]. *)
Theorem run_no_match args traj_ref traj_est ref_name est_name
    w tr te ts tes :
  heap w !! traj_ref = Some tr -> heap w !! traj_est = Some te ->
  timestamps tr = Some ts -> timestamps te = Some tes ->
  wf_traj tr -> wf_traj te ->
  (forall a b, a ∈ ts -> b ∈ tes ->
     args_t_max_diff args < Rabs (a - (b + args_t_offset args))) ->
  fst (run args traj_ref traj_est ref_name est_name w) = inl AssociationError.
Proof.
  intros Hr He Hts Htes Hwfr Hwfe Hfar.
  assert (Hte : is_trajectory te = true)
    by (unfold is_trajectory; by rewrite Htes).
  rewrite run_unfold,
    (run_sync_timestamped args _ _ _ _ _ _ Hr He Hts Hte Hwfr).
  destruct (time_filtered_objects args traj_ref traj_est w tr te ts tes
              Hr He Hts Htes Hwfr Hwfe)
    as (tr1 & te1 & ts1 & tes1 & Hr1 & He1 & Hts1 & Htes1 & Hwf1 & Hwf2
        & Hin1 & Hin2 & _ & _).
  destruct (associate_trajectories_run traj_ref traj_est
              (args_t_max_diff args) (args_t_offset args)
              (time_filtered args traj_ref tr w) tr1 te1 ts1 tes1
              Hr1 He1 Hts1 Htes1 Hwf1 Hwf2)
    as [[_ Hrun] | (Hms & _)]; cbv zeta in *.
  - by rewrite Hrun.
  - exfalso. apply Hms. apply matching_from_none. auto.
Qed.

(** *** Saving the result *)

Lemma truthy_path_Some path : path <> "" -> truthy_path (Some path) = true.
Proof. by destruct path. Qed.

(** X7. Saving a result of [ape] obtained with two different names:
    unless the setting [save_traj_in_zip] is on, the saved result holds
    no trajectory at all, and the same metadata, statistics and arrays;
    with the setting on, the result is saved as it is. *)
Theorem run_save_strips_trajectories traj_ref traj_est rel align
    correct_scale n_to_align align_origin ref_name est_name w res w' path :
  ape traj_ref traj_est rel align correct_scale n_to_align align_origin
      ref_name est_name w = (inr res, w') ->
  ref_name <> est_name -> path <> "" ->
  run_save (Some path) false ref_name est_name res =
    Saved path (mkResult (info res) (stats res) (np_arrays res) ∅) /\
  run_save (Some path) true ref_name est_name res = Saved path res.
Proof.
  intros Hape Hne Hpath. apply ape_result_trajectories in Hape.
  unfold run_save. rewrite (truthy_path_Some _ Hpath). simpl. split; [| done].
  unfold del_trajectory. rewrite Hape.
  rewrite lookup_insert_ne, lookup_insert_eq by auto. simpl.
  rewrite delete_insert_ne, delete_insert_eq, delete_empty by auto.
  rewrite lookup_insert_eq. by rewrite delete_insert_eq, delete_empty.
Qed.

(** X8. Saving a result of [ape] obtained with the same name for both
    trajectories, with the setting [save_traj_in_zip] off: the second
    [del] finds its key already deleted, and nothing is saved. *)
Theorem run_save_same_name_key_error traj_ref traj_est rel align
    correct_scale n_to_align align_origin name w res w' path :
  ape traj_ref traj_est rel align correct_scale n_to_align align_origin
      name name w = (inr res, w') ->
  path <> "" ->
  run_save (Some path) false name name res = SaveKeyError name.
Proof.
  intros Hape Hpath. apply ape_result_trajectories in Hape.
  unfold run_save. rewrite (truthy_path_Some _ Hpath). simpl.
  unfold del_trajectory. rewrite Hape, lookup_insert_eq. simpl.
  by rewrite lookup_delete_eq.
Qed.

(** X9. With [plot_full_ref], the copy that [run] takes of the
    reference is a new object that still holds the whole reference
    when [run] is done, whereas the reference itself has been trimmed
    to the time range when one is given. *)
Theorem run_full_reference_copy args traj_ref traj_est ref_name est_name
    w tr te ts full res w' :
  heap w !! traj_ref = Some tr -> heap w !! traj_est = Some te ->
  timestamps tr = Some ts -> is_trajectory te = true -> wf_traj tr ->
  run_plot_full_ref true args traj_ref traj_est ref_name est_name w
    = (inr (full, res), w') ->
  exists lf,
    full = Some lf /\ heap w !! lf = None /\ heap w' !! lf = Some tr /\
    heap w' !! traj_ref =
      Some (if truthy (args_t_start args) || truthy (args_t_end args)
            then restrict_to_time_range (args_t_start args)
                   (args_t_end args) tr
            else tr).
Proof.
  intros Hr He Hts Hte Hwf Hrun.
  unfold run_plot_full_ref, deepcopy in Hrun.
  set (lf := fresh (dom (heap w))).
  set (w0 := mkWorld (<[lf := tr]> (heap w)) (calls w)).
  assert (Hcopy : (t <- get_obj traj_ref ;; new_obj t) w = (inr lf, w0)).
  { unfold bind. by rewrite (get_obj_run _ _ _ Hr). }
  rewrite (bind_run _ _ _ _ _ (bind_run _ _ _ _ _ Hcopy)) in Hrun.
  unfold ret at 1 in Hrun. run_inv Hrun. injection Hrun as <- <- <-.
  assert (Hlf : heap w !! lf = None) by apply not_elem_of_dom, is_fresh.
  assert (Hne : lf <> traj_ref) by (intros Heq; by rewrite Heq, Hr in Hlf).
  assert (Hne' : lf <> traj_est) by (intros Heq; by rewrite Heq, He in Hlf).
  assert (Hr0 : heap w0 !! traj_ref = Some tr)
    by (simpl; by rewrite lookup_insert_ne).
  assert (He0 : heap w0 !! traj_est = Some te)
    by (simpl; by rewrite lookup_insert_ne).
  pose proof (run_store args traj_ref traj_est ref_name est_name w0 tr te ts
                Hr0 He0 Hts Hte Hwf) as Hkeep.
  rewrite Hrun0 in Hkeep. simpl snd in Hkeep.
  rewrite (time_filtered_heap _ _ _ _ Hr0) in Hkeep.
  exists lf. repeat split; try done.
  - apply Hkeep. rewrite lookup_insert_ne by auto. simpl.
    apply lookup_insert_eq.
  - apply Hkeep, lookup_insert_eq.
Qed.

(** *** The time and distance arrays *)

Lemma shift_sorted c l :
  StronglySorted Rle l -> StronglySorted Rle (map (fun t => t - c) l).
Proof.
  induction 1 as [| t l Hs IH Hall]; simpl; constructor; [done |].
  rewrite Forall_map. eapply Forall_impl; [exact Hall |].
  simpl. intros ? ?. lra.
Qed.

(** X10. The array [seconds_from_start] of a result of [ape] has one
    entry per timestamp of the estimate and starts with 0; for
    timestamps in non-decreasing order it is in non-decreasing order
    and has no negative entry. *)
Theorem ape_seconds_from_start traj_ref traj_est rel align correct_scale
    n_to_align align_origin ref_name est_name w res w' te ts :
  ape traj_ref traj_est rel align correct_scale n_to_align align_origin
      ref_name est_name w = (inr res, w') ->
  heap w' !! traj_est = Some te -> timestamps te = Some ts ->
  exists s,
    np_arrays res !! "seconds_from_start" = Some (Arr1 s) /\
    length s = length ts /\
    (ts <> [] -> s !! 0%nat = Some 0) /\
    (StronglySorted Rle ts ->
       StronglySorted Rle s /\ Forall (fun x => 0 <= x) s).
Proof.
  intros H He Hts.
  apply ape_inv in H as (a & tr0 & te0 & _ & _ & He0 & _ & ->).
  rewrite He in He0. simplify_eq. rewrite Hts. cbv beta iota zeta.
  exists (map (fun t => t - hd 0 ts) ts). split; [| split; [| split]].
  - destruct a; arrays_of_result; by simplify_map_eq.
  - apply length_map.
  - intros Hne. destruct ts as [| t0 ts']; [done |]. simpl. f_equal. lra.
  - intros Hsorted. split; [by apply shift_sorted |].
    destruct ts as [| t0 ts']; [constructor |].
    apply StronglySorted_inv in Hsorted as [_ Hall]. simpl.
    constructor; [lra |]. rewrite Forall_map.
    eapply Forall_impl; [exact Hall |]. simpl. intros ? ?. lra.
Qed.

Lemma cumulative_from_sorted ps :
  forall acc prev,
    Forall (fun d => acc <= d) (cumulative_from acc prev ps) /\
    StronglySorted Rle (cumulative_from acc prev ps).
Proof.
  induction ps as [| p ps IH]; intros acc prev; simpl.
  - split; constructor.
  - destruct (IH (acc + vnorm (vsub p prev)) p) as [Hall Hs].
    pose proof (sqrt_pos (vdot (vsub p prev) (vsub p prev))) as Hpos.
    fold (vnorm (vsub p prev)) in Hpos. split.
    + constructor; [lra |]. eapply Forall_impl; [exact Hall |].
      simpl. intros ? ?. lra.
    + by constructor.
Qed.

Lemma distances_sorted t :
  StronglySorted Rle (distances t) /\ Forall (fun d => 0 <= d) (distances t).
Proof.
  unfold distances, distances_of. destruct (positions t) as [| p ps].
  - split; constructor.
  - destruct (cumulative_from_sorted ps 0 p) as [Hall Hs]. split.
    + by constructor.
    + constructor; [lra | done].
Qed.

(** X11. The array [distances_from_start] of a result of [ape] with a
    timestamped estimate is the array of distances of the reference
    itself (its first entry, which is subtracted, is 0): one entry per
    pose of the reference, starting with 0, never decreasing and never
    negative. *)
Theorem ape_distances_from_start traj_ref traj_est rel align correct_scale
    n_to_align align_origin ref_name est_name w res w' tr te :
  ape traj_ref traj_est rel align correct_scale n_to_align align_origin
      ref_name est_name w = (inr res, w') ->
  heap w' !! traj_ref = Some tr -> heap w' !! traj_est = Some te ->
  is_trajectory te = true ->
  np_arrays res !! "distances_from_start" = Some (Arr1 (distances tr)) /\
  length (distances tr) = num_poses tr /\
  (poses tr <> [] -> distances tr !! 0%nat = Some 0) /\
  StronglySorted Rle (distances tr) /\
  Forall (fun d => 0 <= d) (distances tr).
Proof.
  intros H Hr He Hte.
  apply ape_inv in H as (a & tr0 & te0 & _ & Hr0 & He0 & _ & ->).
  rewrite Hr in Hr0. rewrite He in He0. simplify_eq.
  unfold is_trajectory in Hte.
  destruct (timestamps te0) as [ts |]; [| done]. cbv beta iota zeta.
  split; [| split; [| split]].
  - assert (Hd : map (fun d => d - hd 0 (distances tr0)) (distances tr0)
                 = distances tr0).
    { transitivity (map (fun d : R => d) (distances tr0)); [| apply map_id].
      apply map_ext. intros d. unfold distances, distances_of.
      destruct (positions tr0); simpl; ring. }
    destruct a; arrays_of_result; simplify_map_eq; by rewrite Hd.
  - apply length_distances.
  - unfold distances, distances_of, positions.
    destruct (poses tr0); [done | by simpl].
  - apply distances_sorted.
Qed.

(** *** Identical trajectories *)

Lemma pose_error_same rel p :
  rel = trans_part \/ rel = point_distance -> pose_error rel p p = 0.
Proof.
  destruct p as [[[a b c] [d e f] [g h i]] [x y z]].
  intros [-> | ->]; unfold pose_error, vnorm;
    cbv [se3_compose se3_inverse mat_transpose mat_col0 mat_col1 mat_col2
         mat_vec vadd vsub vscale vdot vx vy vz row0 row1 row2 rot trans];
    rewrite <- sqrt_0; f_equal; ring.
Qed.

Lemma zip_with_pose_error_same rel ps :
  rel = trans_part \/ rel = point_distance ->
  zip_with (pose_error rel) ps ps = replicate (length ps) 0.
Proof.
  intros Hrel. induction ps as [| p ps IH]; simpl; [done |].
  by rewrite IH, pose_error_same.
Qed.

Lemma squares_zeros n : squares (replicate n 0) = replicate n 0.
Proof.
  unfold squares. induction n as [| n IH]; simpl; [done |].
  rewrite IH. f_equal. ring.
Qed.

Lemma rsum_zeros n : rsum (replicate n 0) = 0.
Proof.
  unfold rsum. induction n as [| n IH]; simpl; [done |]. rewrite IH. ring.
Qed.

Lemma rmax_zeros n : rmax_list (replicate n 0) = 0.
Proof.
  destruct n as [| n]; simpl; [done |].
  induction n as [| n IH]; simpl; [done |]. rewrite IH. by apply Rmax_left.
Qed.

(** X12. Comparing a non-empty trajectory with an identical one (or
    with itself), without alignment, under [trans_part] or
    [point_distance]: [ape] returns, leaves the world as it is, and
    every entry of the error array is 0, as are the rmse, the mean, the
    maximum and the sum of squared errors. *)
Theorem ape_identical_is_zero traj_ref traj_est rel n_to_align
    ref_name est_name w tr te :
  heap w !! traj_ref = Some tr -> heap w !! traj_est = Some te ->
  poses tr = poses te -> poses te <> [] ->
  rel = trans_part \/ rel = point_distance ->
  exists res,
    ape traj_ref traj_est rel false false n_to_align false ref_name est_name w
      = (inr res, w) /\
    np_arrays res !! "error_array" = Some (Arr1 (replicate (num_poses te) 0)) /\
    stats res !! "rmse" = Some 0 /\ stats res !! "mean" = Some 0 /\
    stats res !! "max" = Some 0 /\ stats res !! "sse" = Some 0.
Proof.
  intros Hr He Hposes _ Hrel.
  assert (Hn : num_poses tr = num_poses te)
    by (unfold num_poses; by rewrite Hposes).
  eexists. split; [by apply (ape_unaligned_run _ _ _ _ _ _ _ _ _ Hr He Hn) |].
  cbv zeta. rewrite Hposes, (zip_with_pose_error_same _ _ Hrel).
  fold (num_poses te).
  assert (Hstats :
    all_statistics (replicate (num_poses te) 0) !! "rmse" = Some 0 /\
    all_statistics (replicate (num_poses te) 0) !! "mean" = Some 0 /\
    all_statistics (replicate (num_poses te) 0) !! "max" = Some 0 /\
    all_statistics (replicate (num_poses te) 0) !! "sse" = Some 0).
  { unfold all_statistics, rmse, sse, mean.
    rewrite squares_zeros, rsum_zeros, rmax_zeros.
    replace (0 / INR (length (replicate (num_poses te) 0))) with 0
      by (unfold Rdiv; ring).
    rewrite sqrt_0. by simplify_map_eq. }
  destruct (timestamps te) as [ts |].
  - rewrite stats_time_arrays, stats_base. split; [| done].
    arrays_of_result. by simplify_map_eq.
  - rewrite stats_base. split; [| done].
    arrays_of_result. by simplify_map_eq.
Qed.

(** *** Alignment and metric together *)

(** A failure of the alignment step is the failure of [ape]. *)
Lemma ape_fails_in_align traj_ref traj_est rel align correct_scale n_to_align
    align_origin ref_name est_name w e w1 :
  ape_align traj_ref traj_est align correct_scale n_to_align align_origin w
    = (inl e, w1) ->
  ape traj_ref traj_est rel align correct_scale n_to_align align_origin
      ref_name est_name w = (inl e, w1).
Proof. intros Ha. unfold ape, bind at 1. by rewrite Ha. Qed.

(** After the alignment step, trajectories of different lengths make
    [ape] fail with [MetricError], in the world the alignment left. *)
Lemma ape_fails_in_metric traj_ref traj_est rel align correct_scale n_to_align
    align_origin ref_name est_name w a w1 tr te :
  ape_align traj_ref traj_est align correct_scale n_to_align align_origin w
    = (inr a, w1) ->
  heap w1 !! traj_ref = Some tr -> heap w1 !! traj_est = Some te ->
  num_poses tr <> num_poses te ->
  ape traj_ref traj_est rel align correct_scale n_to_align align_origin
      ref_name est_name w = (inl MetricError, w1).
Proof.
  intros Ha Hr He Hn. unfold ape. rewrite (bind_run _ _ _ _ _ Ha).
  unfold process_data, bind, get_obj, raise. rewrite Hr, He.
  apply Nat.eqb_neq in Hn. by rewrite Hn.
Qed.

(** The alignment step with Umeyama alignment, when the solver
    succeeds and when it fails. *)
Lemma ape_align_umeyama_run traj_ref traj_est align correct_scale n_to_align
    align_origin w tr te :
  heap w !! traj_ref = Some tr -> heap w !! traj_est = Some te ->
  align || correct_scale = true ->
  ape_align traj_ref traj_est align correct_scale n_to_align align_origin w =
  match umeyama_alignment (first_n n_to_align (positions te))
          (first_n n_to_align (positions tr)) correct_scale
          (correct_scale && negb align) with
  | Some T =>
      (inr (Some (sim3 T)),
       mkWorld (<[traj_est := traj_transform T te]> (heap w))
         (calls w ++ [CallAlign traj_est traj_ref correct_scale
                        (correct_scale && negb align) n_to_align]))
  | None =>
      (inl AlignmentError,
       mkWorld (heap w)
         (calls w ++ [CallAlign traj_est traj_ref correct_scale
                        (correct_scale && negb align) n_to_align]))
  end.
Proof.
  intros Hr He Hmode.
  unfold ape_align, align_method, bind, log_call, get_obj, set_obj, raise, ret.
  rewrite Hmode. simpl. rewrite He. simpl. rewrite Hr. simpl.
  by destruct (umeyama_alignment _ _ _ _).
Qed.

(** X13. [ape] with origin alignment alone, on two distinct non-empty
    trajectories of equal length: it returns after the one call of
    [align_origin]; the rigid transform from the first pose of the
    estimate to the first pose of the reference is applied to every
    pose of the estimate object, its matrix is stored in the result,
    and the errors are those between the reference and the transformed
    poses. *)
Theorem ape_origin_alignment_applied traj_ref traj_est rel n_to_align
    ref_name est_name w tr te pe pes pr prs :
  traj_ref <> traj_est ->
  heap w !! traj_ref = Some tr -> heap w !! traj_est = Some te ->
  poses te = pe :: pes -> poses tr = pr :: prs ->
  num_poses tr = num_poses te ->
  let T := se3_compose pr (se3_inverse pe) in
  let S := mkSim3 (rot T) (trans T) 1 in
  exists res,
    ape traj_ref traj_est rel false false n_to_align true
        ref_name est_name w =
      (inr res,
       mkWorld (<[traj_est := traj_transform S te]> (heap w))
         (calls w ++ [CallAlignOrigin traj_est traj_ref])) /\
    poses (traj_transform S te) = map (sim3_apply S) (poses te) /\
    np_arrays res !! "alignment_transformation_sim3" = Some (se3 T) /\
    np_arrays res !! "error_array" =
      Some (Arr1 (zip_with (pose_error rel) (poses tr)
                    (map (sim3_apply S) (poses te)))).
Proof.
  intros Hne Hr He Hpe Hpr Hn T S.
  pose proof (ape_align_origin_run traj_ref traj_est n_to_align w tr te
                pe pes pr prs Hr He Hpe Hpr) as Ha. cbv zeta in Ha.
  fold T in Ha. fold S in Ha.
  eexists. split; [| split; [done |]].
  - eapply (ape_run _ _ _ _ _ _ _ _ _ _ _ _ tr (traj_transform S te) Ha).
    + simpl. by rewrite lookup_insert_ne by auto.
    + simpl. apply lookup_insert_eq.
    + rewrite Hn. symmetry. apply traj_transform_shape.
  - cbv zeta.
    destruct (timestamps (traj_transform S te)); arrays_of_result;
      by simplify_map_eq.
Qed.

(** X14. [ape] with Umeyama alignment, on distinct trajectories of
    equal length, when the solver returns a transform for the first
    [n_to_align] positions (all of them for -1): the transform is
    applied to every pose of the estimate object, its matrix is stored
    in the result, and the errors are those between the reference and
    the transformed poses. *)
Theorem ape_umeyama_alignment_applied traj_ref traj_est rel align
    correct_scale n_to_align align_origin ref_name est_name w tr te T :
  traj_ref <> traj_est ->
  heap w !! traj_ref = Some tr -> heap w !! traj_est = Some te ->
  num_poses tr = num_poses te ->
  align || correct_scale = true ->
  umeyama_alignment (first_n n_to_align (positions te))
    (first_n n_to_align (positions tr)) correct_scale
    (correct_scale && negb align) = Some T ->
  exists res,
    ape traj_ref traj_est rel align correct_scale n_to_align align_origin
        ref_name est_name w =
      (inr res,
       mkWorld (<[traj_est := traj_transform T te]> (heap w))
         (calls w ++ [CallAlign traj_est traj_ref correct_scale
                        (correct_scale && negb align) n_to_align])) /\
    poses (traj_transform T te) = map (sim3_apply T) (poses te) /\
    np_arrays res !! "alignment_transformation_sim3" = Some (sim3 T) /\
    np_arrays res !! "error_array" =
      Some (Arr1 (zip_with (pose_error rel) (poses tr)
                    (map (sim3_apply T) (poses te)))).
Proof.
  intros Hne Hr He Hn Hmode Hsolve.
  pose proof (ape_align_umeyama_run traj_ref traj_est align correct_scale
                n_to_align align_origin w tr te Hr He Hmode) as Ha.
  rewrite Hsolve in Ha.
  eexists. split; [| split; [done |]].
  - eapply (ape_run _ _ _ _ _ _ _ _ _ _ _ _ tr (traj_transform T te) Ha).
    + simpl. by rewrite lookup_insert_ne by auto.
    + simpl. apply lookup_insert_eq.
    + rewrite Hn. symmetry. apply traj_transform_shape.
  - cbv zeta.
    destruct (timestamps (traj_transform T te)); arrays_of_result;
      by simplify_map_eq.
Qed.

(** X15. [ape] with Umeyama alignment when the solver fails: [ape]
    fails with [AlignmentError], returns no result, and leaves every
    object as it was. *)
Theorem ape_umeyama_failure traj_ref traj_est rel align correct_scale
    n_to_align align_origin ref_name est_name w tr te :
  heap w !! traj_ref = Some tr -> heap w !! traj_est = Some te ->
  align || correct_scale = true ->
  umeyama_alignment (first_n n_to_align (positions te))
    (first_n n_to_align (positions tr)) correct_scale
    (correct_scale && negb align) = None ->
  ape traj_ref traj_est rel align correct_scale n_to_align align_origin
      ref_name est_name w =
    (inl AlignmentError,
     mkWorld (heap w)
       (calls w ++ [CallAlign traj_est traj_ref correct_scale
                      (correct_scale && negb align) n_to_align])).
Proof.
  intros Hr He Hmode Hsolve. apply ape_fails_in_align.
  rewrite (ape_align_umeyama_run _ _ _ _ _ _ _ _ _ Hr He Hmode).
  by rewrite Hsolve.
Qed.

(** X16. [ape] on two distinct trajectories with different numbers of
    poses fails with [MetricError]; without alignment the world is as
    it was, but with origin alignment (on non-empty trajectories) the
    estimate object has already been transformed when [ape] fails. *)
Theorem ape_length_mismatch traj_ref traj_est rel n_to_align
    ref_name est_name w tr te :
  traj_ref <> traj_est ->
  heap w !! traj_ref = Some tr -> heap w !! traj_est = Some te ->
  num_poses tr <> num_poses te ->
  ape traj_ref traj_est rel false false n_to_align false ref_name est_name w
    = (inl MetricError, w) /\
  forall pe pes pr prs, poses te = pe :: pes -> poses tr = pr :: prs ->
    let T := se3_compose pr (se3_inverse pe) in
    ape traj_ref traj_est rel false false n_to_align true ref_name est_name w
    = (inl MetricError,
       mkWorld (<[traj_est := traj_transform (mkSim3 (rot T) (trans T) 1) te]>
                  (heap w))
               (calls w ++ [CallAlignOrigin traj_est traj_ref])).
Proof.
  intros Hne Hr He Hn. split.
  - by apply (ape_fails_in_metric _ _ _ _ _ _ _ _ _ _ _ _ tr te
                (ape_align_none _ _ _ _)).
  - intros pe pes pr prs Hpe Hpr T.
    eapply (ape_fails_in_metric _ _ _ _ _ _ _ _ _ _ _ _ tr).
    + by eapply ape_align_origin_run.
    + simpl. by rewrite lookup_insert_ne by auto.
    + simpl. apply lookup_insert_eq.
    + fold T. by rewrite (proj2 (traj_transform_shape _ te)).
Qed.

(** *** Runs on scenario A *)

(** [run] with an end time of 0.0 succeeds wherever the two
    trajectories of scenario A are stored. *)
Lemma scenario_run_succeeds traj_ref traj_est ref_name est_name w :
  heap w !! traj_ref = Some scenario_ref ->
  heap w !! traj_est = Some scenario_est ->
  exists res w',
    run args_end_zero traj_ref traj_est ref_name est_name w = (inr res, w').
Proof.
  intros Hr He. rewrite run_unfold.
  rewrite (run_sync_unrestricted args_end_zero traj_ref traj_est w
             scenario_ref scenario_est Hr He eq_refl eq_refl);
    [| unfold args_end_zero, truthy; cbn [args_t_start args_t_end orb];
       by rewrite req_refl].
  change (args_t_max_diff args_end_zero) with (1 / 100).
  change (args_t_offset args_end_zero) with 0.
  destruct (associate_trajectories traj_ref traj_est (1 / 100) 0 w)
    as [[e | [la lb]] w2] eqn:Ha.
  - exfalso.
    destruct (associate_trajectories_run traj_ref traj_est (1 / 100) 0 w
                scenario_ref scenario_est [0; 1; 2] [0; 1; 2]
                Hr He eq_refl eq_refl eq_refl eq_refl)
      as [[Hms _] | (_ & ta' & tb' & _ & _ & _ & _ & Hrun)].
    + by rewrite scenario_matching in Hms.
    + cbv zeta in Hrun. by rewrite Ha in Hrun.
  - destruct (associate_trajectories_inr _ _ _ _ _ _ _ _ _ _ _ _
                Hr He eq_refl eq_refl eq_refl eq_refl Ha)
      as (ta' & tb' & Hla & Hlb & _ & _ & _ & Hsame & _ & _).
    eexists _, _. cbn [args_pose_relation args_align args_correct_scale
      args_n_to_align args_align_origin args_end_zero].
    by apply (ape_unaligned_run _ _ _ _ _ _ _ _ _ Hla Hlb Hsame).
Qed.

Lemma mixed_lookup_ref : heap mixed_world !! 0%nat = Some scenario_ref.
Proof.
  unfold mixed_world. simpl. rewrite lookup_insert_ne by done.
  apply scenario_lookup_ref.
Qed.

Lemma mixed_lookup_path : heap mixed_world !! 2%nat = Some short_path.
Proof. unfold mixed_world. simpl. apply lookup_insert_eq. Qed.

(** No timestamp of scenario A is within a hundredth of a second of
    another one shifted by 10 seconds. *)
Lemma scenario_offset_ten_far a b :
  a ∈ [0; 1; 2] -> b ∈ [0; 1; 2] -> 1 / 100 < Rabs (a - (b + 10)).
Proof.
  rewrite !elem_of_cons, !elem_of_nil.
  intros [-> | [-> | [-> | []]]] [-> | [-> | [-> | []]]]; abs_lra.
Qed.

(** With origin alignment requested and no time range, on the
    trajectories of scenario A, the association returns copies of the
    whole reference and the whole estimate. *)
Lemma scenario_run_sync_origin :
  exists la lb w',
    run_sync args_origin 0%nat 1%nat scenario_world = (inr (la, lb), w') /\
    calls w' = [CallAssociate 0%nat 1%nat (1 / 100) 0] /\
    heap w' !! la = Some scenario_ref /\
    heap w' !! lb = Some scenario_est.
Proof.
  destruct scenario_run_sync_end_zero as (la & lb & w' & Hsync & Hrest).
  exists la, lb, w'. split; [| exact Hrest]. rewrite <- Hsync.
  rewrite (run_sync_unrestricted args_origin 0%nat 1%nat scenario_world
             scenario_ref scenario_est scenario_lookup_ref
             scenario_lookup_est eq_refl eq_refl eq_refl).
  symmetry.
  apply (run_sync_unrestricted args_end_zero 0%nat 1%nat scenario_world
           scenario_ref scenario_est scenario_lookup_ref
           scenario_lookup_est eq_refl eq_refl).
  unfold args_end_zero, truthy. cbn [args_t_start args_t_end orb].
  by rewrite req_refl.
Qed.

End APE.

(** ** Closed instances *)

(** Runs [ape] without alignment on the world of scenario A. *)
Ltac scenario_runs :=
  apply ape_unaligned_run with (tr := scenario_ref) (te := scenario_est);
  [ apply scenario_lookup_ref | apply scenario_lookup_est | reflexivity ].

(** The same run, as a hypothesis [H]. *)
Ltac scenario_run_as H :=
  pose proof (ape_unaligned_run no_umeyama zero_so3 zero_se3 plain_title
                0%nat 1%nat trans_part (-1)%Z "reference" "estimate"
                scenario_world scenario_ref scenario_est
                scenario_lookup_ref scenario_lookup_est eq_refl) as H.

(** C3, counterexample. On scenario A with origin alignment [ape]
    returns a result, and the estimate object of the caller no longer
    holds the poses it held before. *)
Lemma ape_origin_alignment_moves_estimate :
  exists res w',
    ape no_umeyama zero_so3 zero_se3 plain_title 0%nat 1%nat trans_part
        false false (-1) true "reference" "estimate" scenario_world
      = (inr res, w') /\
    heap w' !! 1%nat <> heap scenario_world !! 1%nat.
Proof.
  destruct (ape_origin_run no_umeyama zero_so3 zero_se3 plain_title
              0%nat 1%nat trans_part (-1) "reference" "estimate"
              scenario_world scenario_ref scenario_est
              (pose_at 0.1 0 0) [pose_at 1.1 0 0; pose_at 2.1 0 0]
              (pose_at 0 0 0) [pose_at 1 0 0; pose_at 2 0 0])
    as [res Hrun]; [lia | apply scenario_lookup_ref | apply scenario_lookup_est
                   | reflexivity .. |].
  eexists res, _. split; [exact Hrun |].
  cbn [heap]. rewrite lookup_insert_eq, scenario_lookup_est.
  intros Heq.
  apply (f_equal (fun o => match o with
                           | Some t => vx (trans (hd (pose_at 0 0 0) (poses t)))
                           | None => 0
                           end)) in Heq.
  revert Heq.
  cbv [traj_transform sim3_apply se3_compose se3_inverse mat_mul vec_mat
       mat_vec vadd vscale vdot mat_col0 mat_col1 mat_col2 mat_transpose
       mat_id pose_at vx vy vz row0 row1 row2 rot trans sim_rot sim_trans
       sim_scale poses hd map scenario_est].
  lra.
Qed.

(** C8, counterexample. With the same name for both trajectories the
    result of [ape] holds the estimate under that name and the
    reference under none. *)
Lemma ape_same_name_keeps_estimate_only :
  exists res w',
    ape no_umeyama zero_so3 zero_se3 plain_title 0%nat 1%nat trans_part
        false false (-1) false "traj" "traj" scenario_world = (inr res, w') /\
    trajectories res !! "traj" = Some 1%nat /\
    forall k, trajectories res !! k <> Some 0%nat.
Proof.
  eexists _, _. split; [scenario_runs |].
  change (timestamps scenario_est) with (Some [0; 1; 2]). cbv beta iota zeta.
  unfold ape_time_arrays, ape_base_result. simpl. split.
  - apply lookup_insert_eq.
  - intros k. rewrite insert_insert_eq.
    destruct (decide (k = "traj")) as [-> | Hk].
    + by rewrite lookup_insert_eq.
    + by rewrite lookup_insert_ne.
Qed.

(** ** Instances on scenario A *)

(** C3: the Synchronizer on scenario A keeps the objects of the caller,
    and [ape] without alignment leaves the world as it was. *)
Lemma pipeline_object_effects_witness :
  heap scenario_world ⊆
    heap (snd (associate_trajectories 0%nat 1%nat (1 / 100) 0 scenario_world))
  /\
  snd (ape no_umeyama zero_so3 zero_se3 plain_title 0%nat 1%nat trans_part
         false false (-1) false "reference" "estimate" scenario_world)
    = scenario_world.
Proof.
  destruct (pipeline_object_effects no_umeyama zero_so3 zero_se3 plain_title)
    as [Hsync Hape].
  split.
  - apply Hsync.
  - apply (Hape 0%nat 1%nat trans_part false false (-1)%Z false
             "reference" "estimate" scenario_world).
    reflexivity.
Defined.

(** C5: on scenario A, where equal timestamps are within a hundredth of
    a second, the Synchronizer returns two new trajectories of equal
    length between one and three. *)
Lemma associate_trajectories_lengths_witness :
  exists la lb w',
    associate_trajectories 0%nat 1%nat (1 / 100) 0 scenario_world
      = (inr (la, lb), w') /\
    exists ta' tb',
      heap w' !! la = Some ta' /\ heap w' !! lb = Some tb' /\
      heap scenario_world !! la = None /\ heap scenario_world !! lb = None /\
      num_poses ta' = num_poses tb' /\
      (0 < num_poses ta')%nat /\
      (num_poses ta' <= num_poses scenario_ref `min` num_poses scenario_est)%nat.
Proof.
  assert (Hpos : 0 <= 1 / 100) by lra.
  destruct (associate_trajectories_lengths 0%nat 1%nat (1 / 100) 0
              scenario_world scenario_ref scenario_est [0; 1; 2] [0; 1; 2]
              scenario_lookup_ref scenario_lookup_est eq_refl eq_refl
              eq_refl eq_refl Hpos) as (Hout & _ & Hsome).
  destruct Hsome as (la & lb & w' & Hrun).
  { exists 0, 0. split; [by left | split; [by left |]].
    unfold Rabs. destruct (Rcase_abs _); lra. }
  exists la, lb, w'. split; [exact Hrun |].
  rewrite Hrun in Hout. exact Hout.
Defined.

(** C6: the title of scenario A. *)
Lemma ape_title_info_witness :
  exists res,
    ape no_umeyama zero_so3 zero_se3 plain_title 0%nat 1%nat trans_part
        false false (-1) false "reference" "estimate" scenario_world
      = (inr res, scenario_world) /\
    info res !! "title" = Some ("APE" +:+ nl +:+ "(not aligned)").
Proof.
  scenario_run_as Hrun. eexists. split; [exact Hrun |].
  exact (ape_title_info _ _ _ _ _ _ _ _ _ _ _ _ _ _ _ _ Hrun).
Defined.

(** C7, counterexample. On scenario A with origin alignment the result
    of [ape] stores, next to the arrays of the three compared pose
    pairs, an array of four rows. *)
Lemma ape_alignment_matrix_four_rows :
  exists res w' a,
    ape no_umeyama zero_so3 zero_se3 plain_title 0%nat 1%nat trans_part
        false false (-1) true "reference" "estimate" scenario_world
      = (inr res, w') /\
    np_arrays res !! "alignment_transformation_sim3" = Some a /\
    arr_len a = 4%nat /\
    num_poses scenario_ref = 3%nat /\ num_poses scenario_est = 3%nat /\
    arr_len a <> num_poses scenario_ref.
Proof.
  destruct (ape_origin_run no_umeyama zero_so3 zero_se3 plain_title
              0%nat 1%nat trans_part (-1) "reference" "estimate"
              scenario_world scenario_ref scenario_est
              (pose_at 0.1 0 0) [pose_at 1.1 0 0; pose_at 2.1 0 0]
              (pose_at 0 0 0) [pose_at 1 0 0; pose_at 2 0 0])
    as [res Hrun]; [lia | apply scenario_lookup_ref | apply scenario_lookup_est
                   | reflexivity .. |].
  destruct (ape_alignment_rows _ _ _ _ _ _ _ _ _ _ _ _ _ _ _ _ Hrun)
    as (rows & Hm & Hfour).
  eexists res, _, (Arr2 rows). split; [exact Hrun |]. split; [exact Hm |].
  split; [exact Hfour |]. split; [reflexivity |]. split; [reflexivity |].
  change (length rows <> 3%nat). rewrite Hfour. lia.
Qed.

(** C7: the arrays of scenario A with origin alignment have three
    entries, but for the alignment matrix, which has four rows. *)
Lemma ape_array_lengths_witness :
  exists res w',
    ape no_umeyama zero_so3 zero_se3 plain_title 0%nat 1%nat trans_part
        false false (-1) true "reference" "estimate" scenario_world
      = (inr res, w') /\
    is_Some (np_arrays res !! "error_array") /\
    forall k a, np_arrays res !! k = Some a ->
      (k ∈ per_pose_keys /\ arr_len a = 3%nat /\ arr_len a = 3%nat) \/
      (k = "alignment_transformation_sim3" /\ arr_len a = 4%nat).
Proof.
  destruct (ape_origin_run no_umeyama zero_so3 zero_se3 plain_title
              0%nat 1%nat trans_part (-1) "reference" "estimate"
              scenario_world scenario_ref scenario_est
              (pose_at 0.1 0 0) [pose_at 1.1 0 0; pose_at 2.1 0 0]
              (pose_at 0 0 0) [pose_at 1 0 0; pose_at 2 0 0])
    as [res Hrun]; [lia | apply scenario_lookup_ref | apply scenario_lookup_est
                   | reflexivity .. |].
  eexists res, _. split; [exact Hrun |].
  apply (ape_array_lengths _ _ _ _ _ _ _ _ _ _ _ _ _ _ _ _
           scenario_ref scenario_est Hrun).
  - apply scenario_lookup_ref.
  - apply scenario_lookup_est.
  - reflexivity.
Defined.

(** C8: with distinct names, scenario A attaches both trajectories. *)
Lemma ape_attached_trajectories_witness :
  exists res,
    ape no_umeyama zero_so3 zero_se3 plain_title 0%nat 1%nat trans_part
        false false (-1) false "reference" "estimate" scenario_world
      = (inr res, scenario_world) /\
    trajectories res !! "estimate" = Some 1%nat /\
    trajectories res !! "reference" = Some 0%nat.
Proof.
  scenario_run_as Hrun. eexists. split; [exact Hrun |].
  destruct (ape_attached_trajectories _ _ _ _ _ _ _ _ _ _ _ _ _ _ _ _ Hrun)
    as [Hest Href].
  split; [exact Hest | apply Href; discriminate].
Defined.

(** C9: the time arrays of scenario A. *)
Lemma ape_time_arrays_stored_witness :
  exists res,
    ape no_umeyama zero_so3 zero_se3 plain_title 0%nat 1%nat trans_part
        false false (-1) false "reference" "estimate" scenario_world
      = (inr res, scenario_world) /\
    np_arrays res !! "seconds_from_start" =
      Some (Arr1 [0 - 0; 1 - 0; 2 - 0]) /\
    np_arrays res !! "timestamps" = Some (Arr1 [0; 1; 2]) /\
    np_arrays res !! "distances_from_start" =
      Some (Arr1 (map (fun d => d - hd 0 (distances scenario_ref))
                    (distances scenario_ref))) /\
    np_arrays res !! "distances" = Some (Arr1 (distances scenario_est)).
Proof.
  scenario_run_as Hrun. eexists. split; [exact Hrun |].
  exact (ape_time_arrays_stored _ _ _ _ _ _ _ _ _ _ _ _ _ _ _ _
           scenario_ref scenario_est Hrun
           scenario_lookup_ref scenario_lookup_est).
Defined.

(** C10: scenario A with origin alignment stores the matrix of the
    rigid transform that takes the first pose of the estimate to the
    first pose of the reference, and the estimate object is the
    estimate moved by that transform. *)
Lemma ape_alignment_array_witness :
  exists res w',
    ape no_umeyama zero_so3 zero_se3 plain_title 0%nat 1%nat trans_part
        false false (-1) true "reference" "estimate" scenario_world
      = (inr res, w') /\
    let T := se3_compose (pose_at 0 0 0) (se3_inverse (pose_at 0.1 0 0)) in
    heap w' !! 1%nat
      = Some (traj_transform (mkSim3 (rot T) (trans T) 1) scenario_est) /\
    np_arrays res !! "alignment_transformation_sim3"
      = Some (similarity_matrix (mkSim3 (rot T) (trans T) 1)).
Proof.
  destruct (ape_origin_run no_umeyama zero_so3 zero_se3 plain_title
              0%nat 1%nat trans_part (-1) "reference" "estimate"
              scenario_world scenario_ref scenario_est
              (pose_at 0.1 0 0) [pose_at 1.1 0 0; pose_at 2.1 0 0]
              (pose_at 0 0 0) [pose_at 1 0 0; pose_at 2 0 0])
    as [res Hrun]; [lia | apply scenario_lookup_ref | apply scenario_lookup_est
                   | reflexivity .. |].
  eexists res, _. split; [exact Hrun |].
  destruct (ape_alignment_array _ _ _ _ _ _ _ _ _ _ _ _ _ _ _ _ Hrun)
    as (tr & te & pe & pes & pr & prs & Hr & He & Hpe & Hpr & Hpost).
  rewrite scenario_lookup_ref in Hr. rewrite scenario_lookup_est in He.
  injection Hr as <-. injection He as <-.
  injection Hpe as <- <-. injection Hpr as <- <-.
  exact Hpost.
Defined.

(** ** Instances of the properties of [run] and [ape] *)

(** X1: with origin alignment requested, [run] on scenario A calls the
    Synchronizer on the objects 0 and 1 and then [align_origin] on two
    other objects. *)
Lemma run_call_order_witness :
  exists la lb,
    calls (snd (run no_umeyama zero_so3 zero_se3 plain_title args_origin
                  0%nat 1%nat "reference" "estimate" scenario_world)) =
      [CallAssociate 0%nat 1%nat (1 / 100) 0; CallAlignOrigin lb la] /\
    la <> lb /\ la <> 0%nat /\ la <> 1%nat /\ lb <> 0%nat /\ lb <> 1%nat /\
    heap scenario_world !! la = None /\ heap scenario_world !! lb = None.
Proof.
  destruct (run_call_order no_umeyama zero_so3 zero_se3 plain_title
              args_origin 0%nat 1%nat "reference" "estimate" scenario_world
              scenario_ref scenario_est [0; 1; 2]
              scenario_lookup_ref scenario_lookup_est eq_refl eq_refl eq_refl)
    as [Hcalls Hnew].
  destruct scenario_run_sync_origin as (la & lb & w' & Hsync & _).
  rewrite Hsync in Hcalls, Hnew.
  exists la, lb. split; [exact Hcalls | exact (Hnew la lb eq_refl)].
Defined.

(** X2: against an untimestamped path the time options change
    nothing. *)
Lemma run_untimestamped_witness :
  run no_umeyama zero_so3 zero_se3 plain_title args_end_zero
      0%nat 2%nat "reference" "estimate" mixed_world =
  run no_umeyama zero_so3 zero_se3 plain_title args_from_one
      0%nat 2%nat "reference" "estimate" mixed_world.
Proof.
  apply (run_untimestamped no_umeyama zero_so3 zero_se3 plain_title
           args_end_zero args_from_one 0%nat 2%nat "reference" "estimate"
           mixed_world scenario_ref short_path
           mixed_lookup_ref mixed_lookup_path
           eq_refl eq_refl eq_refl eq_refl eq_refl eq_refl).
Defined.

(** X3: with a start time of 1 the estimate of scenario A is kept and
    its reference is trimmed. *)
Lemma run_changes_reference_only_witness :
  heap (snd (run no_umeyama zero_so3 zero_se3 plain_title args_from_one
               0%nat 1%nat "reference" "estimate" scenario_world)) !! 1%nat
    = Some scenario_est /\
  heap (snd (run no_umeyama zero_so3 zero_se3 plain_title args_from_one
               0%nat 1%nat "reference" "estimate" scenario_world)) !! 0%nat
    = Some (restrict_to_time_range (Some 1) None scenario_ref).
Proof.
  destruct (run_changes_reference_only no_umeyama zero_so3 zero_se3
              plain_title args_from_one 0%nat 1%nat "reference" "estimate"
              scenario_world scenario_ref scenario_est [0; 1; 2]
              scenario_lookup_ref scenario_lookup_est eq_refl eq_refl eq_refl)
    as (Hother & Href & _).
  split.
  - apply Hother; [discriminate | apply scenario_lookup_est].
  - rewrite Href. unfold args_from_one, truthy, req.
    cbn [args_t_start args_t_end]. destruct (Req_dec_T 1 0); [lra | done].
Defined.


(** X5: [run] on scenario A compares between one and three pairs. *)
Lemma run_compared_pairs_witness :
  exists res w' err,
    run no_umeyama zero_so3 zero_se3 plain_title args_end_zero
        0%nat 1%nat "reference" "estimate" scenario_world = (inr res, w') /\
    np_arrays res !! "error_array" = Some (Arr1 err) /\
    (1 <= length err <= 3)%nat.
Proof.
  destruct (scenario_run_succeeds no_umeyama zero_so3 zero_se3 plain_title
              0%nat 1%nat "reference" "estimate" scenario_world
              scenario_lookup_ref scenario_lookup_est) as (res & w' & Hrun).
  destruct (run_compared_pairs no_umeyama zero_so3 zero_se3 plain_title
              args_end_zero 0%nat 1%nat "reference" "estimate" scenario_world
              scenario_ref scenario_est [0; 1; 2] [0; 1; 2] res w'
              scenario_lookup_ref scenario_lookup_est eq_refl eq_refl
              eq_refl eq_refl Hrun)
    as (err & Harr & Hlen).
  by exists res, w', err.
Defined.

(** X6: scenario A with a time offset of 10 seconds. *)
Lemma run_no_match_witness :
  fst (run no_umeyama zero_so3 zero_se3 plain_title args_offset_ten
         0%nat 1%nat "reference" "estimate" scenario_world)
  = inl AssociationError.
Proof.
  apply (run_no_match no_umeyama zero_so3 zero_se3 plain_title
           args_offset_ten 0%nat 1%nat "reference" "estimate" scenario_world
           scenario_ref scenario_est [0; 1; 2] [0; 1; 2]
           scenario_lookup_ref scenario_lookup_est eq_refl eq_refl
           eq_refl eq_refl).
  intros a b. apply scenario_offset_ten_far.
Defined.

(** X7: saving the result of scenario A. *)
Lemma run_save_strips_trajectories_witness :
  exists res,
    ape no_umeyama zero_so3 zero_se3 plain_title 0%nat 1%nat trans_part
        false false (-1) false "reference" "estimate" scenario_world
      = (inr res, scenario_world) /\
    run_save (Some "out.zip") false "reference" "estimate" res =
      Saved "out.zip" (mkResult (info res) (stats res) (np_arrays res) ∅).
Proof.
  scenario_run_as Hrun. eexists. split; [exact Hrun |].
  apply (run_save_strips_trajectories _ _ _ _ _ _ _ _ _ _ _ _ _ _ _ _
           "out.zip" Hrun); discriminate.
Defined.

(** X8: saving the result of scenario A when both trajectories have
    the same name. *)
Lemma run_save_same_name_key_error_witness :
  exists res,
    ape no_umeyama zero_so3 zero_se3 plain_title 0%nat 1%nat trans_part
        false false (-1) false "traj" "traj" scenario_world
      = (inr res, scenario_world) /\
    run_save (Some "out.zip") false "traj" "traj" res = SaveKeyError "traj".
Proof.
  pose proof (ape_unaligned_run no_umeyama zero_so3 zero_se3 plain_title
                0%nat 1%nat trans_part (-1)%Z "traj" "traj"
                scenario_world scenario_ref scenario_est
                scenario_lookup_ref scenario_lookup_est eq_refl) as Hrun.
  eexists. split; [exact Hrun |].
  apply (run_save_same_name_key_error _ _ _ _ _ _ _ _ _ _ _ _ _ _ _
           "out.zip" Hrun). discriminate.
Defined.

(** X9: the copy of the full reference of scenario A. *)
Lemma run_full_reference_copy_witness :
  exists lf res w',
    run_plot_full_ref no_umeyama zero_so3 zero_se3 plain_title true
      args_end_zero 0%nat 1%nat "reference" "estimate" scenario_world
      = (inr (Some lf, res), w') /\
    heap scenario_world !! lf = None /\
    heap w' !! lf = Some scenario_ref.
Proof.
  set (lf := fresh (dom (heap scenario_world))).
  set (w0 := mkWorld (<[lf := scenario_ref]> (heap scenario_world))
               (calls scenario_world)).
  assert (Hlf : heap scenario_world !! lf = None)
    by apply not_elem_of_dom, is_fresh.
  assert (Hr0 : heap w0 !! 0%nat = Some scenario_ref).
  { simpl. rewrite lookup_insert_ne; [apply scenario_lookup_ref |].
    intros Heq. by rewrite Heq, scenario_lookup_ref in Hlf. }
  assert (He0 : heap w0 !! 1%nat = Some scenario_est).
  { simpl. rewrite lookup_insert_ne; [apply scenario_lookup_est |].
    intros Heq. by rewrite Heq, scenario_lookup_est in Hlf. }
  destruct (scenario_run_succeeds no_umeyama zero_so3 zero_se3 plain_title
              0%nat 1%nat "reference" "estimate" w0 Hr0 He0)
    as (res & w' & Hrun).
  assert (Hfull :
    run_plot_full_ref no_umeyama zero_so3 zero_se3 plain_title true
      args_end_zero 0%nat 1%nat "reference" "estimate" scenario_world
      = (inr (Some lf, res), w')).
  { unfold run_plot_full_ref, deepcopy, bind.
    rewrite (get_obj_run _ _ _ scenario_lookup_ref).
    unfold new_obj at 1. fold lf. fold w0. unfold ret at 1.
    by rewrite Hrun. }
  destruct (run_full_reference_copy no_umeyama zero_so3 zero_se3 plain_title
              args_end_zero 0%nat 1%nat "reference" "estimate" scenario_world
              scenario_ref scenario_est [0; 1; 2] (Some lf) res w'
              scenario_lookup_ref scenario_lookup_est eq_refl eq_refl eq_refl
              Hfull)
    as (lf' & Heq & Hnone & Hcopy & _).
  injection Heq as <-. by exists lf, res, w'.
Defined.

(** X10: the seconds from the start of scenario A. *)
Lemma ape_seconds_from_start_witness :
  exists res s,
    ape no_umeyama zero_so3 zero_se3 plain_title 0%nat 1%nat trans_part
        false false (-1) false "reference" "estimate" scenario_world
      = (inr res, scenario_world) /\
    np_arrays res !! "seconds_from_start" = Some (Arr1 s) /\
    length s = 3%nat /\ s !! 0%nat = Some 0 /\
    StronglySorted Rle s /\ Forall (fun x => 0 <= x) s.
Proof.
  scenario_run_as Hrun.
  destruct (ape_seconds_from_start _ _ _ _ _ _ _ _ _ _ _ _ _ _ _ _
              scenario_est [0; 1; 2] Hrun scenario_lookup_est eq_refl)
    as (s & Harr & Hlen & Hzero & Hsorted).
  eexists _, s. split; [exact Hrun |]. split; [exact Harr |].
  split; [exact Hlen |]. split; [by apply Hzero |].
  apply Hsorted. repeat constructor; lra.
Defined.

(** X11: the distances from the start of scenario A. *)
Lemma ape_distances_from_start_witness :
  exists res,
    ape no_umeyama zero_so3 zero_se3 plain_title 0%nat 1%nat trans_part
        false false (-1) false "reference" "estimate" scenario_world
      = (inr res, scenario_world) /\
    np_arrays res !! "distances_from_start"
      = Some (Arr1 (distances scenario_ref)) /\
    distances scenario_ref !! 0%nat = Some 0.
Proof.
  scenario_run_as Hrun.
  destruct (ape_distances_from_start _ _ _ _ _ _ _ _ _ _ _ _ _ _ _ _
              scenario_ref scenario_est Hrun
              scenario_lookup_ref scenario_lookup_est eq_refl)
    as (Harr & _ & Hzero & _).
  eexists. split; [exact Hrun |]. split; [exact Harr |]. by apply Hzero.
Defined.

(** X12: the reference of scenario A against itself. *)
Lemma ape_identical_is_zero_witness :
  exists res,
    ape no_umeyama zero_so3 zero_se3 plain_title 0%nat 0%nat trans_part
        false false (-1) false "reference" "estimate" scenario_world
      = (inr res, scenario_world) /\
    np_arrays res !! "error_array" = Some (Arr1 [0; 0; 0]) /\
    stats res !! "rmse" = Some 0.
Proof.
  destruct (ape_identical_is_zero no_umeyama zero_so3 zero_se3 plain_title
              0%nat 0%nat trans_part (-1)%Z "reference" "estimate"
              scenario_world scenario_ref scenario_ref
              scenario_lookup_ref scenario_lookup_ref eq_refl)
    as (res & Hrun & Harr & Hrmse & _); [discriminate | by left |].
  by exists res.
Defined.

(** X13: scenario A with origin alignment. *)
Lemma ape_origin_alignment_applied_witness :
  exists res w',
    ape no_umeyama zero_so3 zero_se3 plain_title 0%nat 1%nat trans_part
        false false (-1) true "reference" "estimate" scenario_world
      = (inr res, w') /\
    calls w' = [CallAlignOrigin 1%nat 0%nat] /\
    np_arrays res !! "alignment_transformation_sim3" =
      Some (se3 (se3_compose (pose_at 0 0 0) (se3_inverse (pose_at 0.1 0 0)))).
Proof.
  destruct (ape_origin_alignment_applied no_umeyama zero_so3 zero_se3
              plain_title 0%nat 1%nat trans_part (-1)%Z "reference" "estimate"
              scenario_world scenario_ref scenario_est
              (pose_at 0.1 0 0) [pose_at 1.1 0 0; pose_at 2.1 0 0]
              (pose_at 0 0 0) [pose_at 1 0 0; pose_at 2 0 0])
    as (res & Hrun & _ & Hmatrix & _).
  - discriminate.
  - apply scenario_lookup_ref.
  - apply scenario_lookup_est.
  - reflexivity.
  - reflexivity.
  - reflexivity.
  - eexists res, _. split; [exact Hrun |]. split; [reflexivity | exact Hmatrix].
Defined.

(** X14: scenario A with a solver that returns a shift along x. *)
Lemma ape_umeyama_alignment_applied_witness :
  exists res w',
    ape (fixed_umeyama shift_x) zero_so3 zero_se3 plain_title 0%nat 1%nat
        trans_part true false (-1) false "reference" "estimate"
        scenario_world = (inr res, w') /\
    heap w' !! 1%nat = Some (traj_transform shift_x scenario_est) /\
    np_arrays res !! "alignment_transformation_sim3" = Some (sim3 shift_x).
Proof.
  destruct (ape_umeyama_alignment_applied (fixed_umeyama shift_x) zero_so3
              zero_se3 plain_title 0%nat 1%nat trans_part true false (-1)%Z
              false "reference" "estimate" scenario_world
              scenario_ref scenario_est shift_x)
    as (res & Hrun & _ & Hmatrix & _).
  - discriminate.
  - apply scenario_lookup_ref.
  - apply scenario_lookup_est.
  - reflexivity.
  - reflexivity.
  - reflexivity.
  - eexists res, _. split; [exact Hrun |]. split; [| exact Hmatrix].
    simpl. apply lookup_insert_eq.
Defined.

(** X15: scenario A with a solver that fails. *)
Lemma ape_umeyama_failure_witness :
  ape no_umeyama zero_so3 zero_se3 plain_title 0%nat 1%nat trans_part
      true false (-1) false "reference" "estimate" scenario_world =
  (inl AlignmentError,
   mkWorld (heap scenario_world) [CallAlign 1%nat 0%nat false false (-1)]).
Proof.
  apply (ape_umeyama_failure no_umeyama zero_so3 zero_se3 plain_title
           0%nat 1%nat trans_part true false (-1)%Z false
           "reference" "estimate" scenario_world scenario_ref scenario_est).
  - apply scenario_lookup_ref.
  - apply scenario_lookup_est.
  - reflexivity.
  - reflexivity.
Defined.

(** X16: the reference of scenario A against a path of one pose. *)
Lemma ape_length_mismatch_witness :
  ape no_umeyama zero_so3 zero_se3 plain_title 0%nat 2%nat trans_part
      false false (-1) false "reference" "estimate" mixed_world =
  (inl MetricError, mixed_world).
Proof.
  apply (ape_length_mismatch no_umeyama zero_so3 zero_se3 plain_title
           0%nat 2%nat trans_part (-1)%Z "reference" "estimate"
           mixed_world scenario_ref short_path).
  - discriminate.
  - apply mixed_lookup_ref.
  - apply mixed_lookup_path.
  - unfold num_poses. simpl. lia.
Defined.

(** ** Scenario A in binary64 *)

Local Set Warnings "-inexact-float".

(** C1, counterexample. In binary64 [ape] on scenario A, with pose
    relation [trans_part] and no alignment, returns a result whose
    error array is not [0.1, 0.1, 0.1] and whose rmse is not 0.1: the
    second error is 1.1 - 1 = 0.10000000000000009. *)
Lemma ape_scenario_A_not_exact :
  exists res,
    B64.ape B64.no_umeyama B64.zero_so3 B64.zero_se3 plain_title
        B64.no_arccos B64.pi 0%nat 1%nat trans_part false false (-1) false
        "reference" "estimate" B64.scenario_world
      = (inr res, B64.scenario_world) /\
    B64.np_arrays res !! "error_array"
      <> Some (B64.Arr1 [0.1; 0.1; 0.1]%float) /\
    B64.stats res !! "rmse" <> Some 0.1%float.
Proof.
  eexists. split; [vm_compute; reflexivity |]. split; intros H.
  - apply (f_equal (fun o => match o with
                             | Some (B64.Arr1 (_ :: x :: _)) =>
                                 PrimFloat.eqb x 0.1
                             | _ => true
                             end)) in H.
    vm_compute in H. discriminate.
  - apply (f_equal (fun o => match o with
                             | Some x => PrimFloat.eqb x 0.1
                             | None => true
                             end)) in H.
    vm_compute in H. discriminate.
Qed.

(** C1, as amended. In binary64 [ape] on scenario A, with pose relation
    [trans_part] and no alignment, whatever the kernels of the other
    pose relations and of the alignment: it returns in the same world
    a result whose error array is
    [0.1, 0.10000000000000009, 0.10000000000000009] and whose rmse is
    0.10000000000000005, each within 1e-15 of 0.1. *)
Theorem ape_scenario_A_binary64 umeyama_alignment so3_distance se3_distance
    metric_title arccos pi :
  exists res,
    B64.ape umeyama_alignment so3_distance se3_distance metric_title
        arccos pi 0%nat 1%nat trans_part false false (-1) false
        "reference" "estimate" B64.scenario_world
      = (inr res, B64.scenario_world) /\
    B64.np_arrays res !! "error_array"
      = Some (B64.Arr1 [0.1; 0.10000000000000009; 0.10000000000000009]%float) /\
    B64.stats res !! "rmse" = Some 0.10000000000000005%float /\
    forallb B64.near_tenth (B64.rmse_of res :: B64.error_array res) = true.
Proof.
  eexists. split; [| split; [| split]]; vm_compute; reflexivity.
Qed.
